(** * Validacao-de-Dados: a shallow embedding of [validar_dados.py]

    Conventions of the embedding.
    - The text of a spreadsheet cell, a column label and a message are kept as
      a [string], one character per code point below 256; text constants with
      accented letters are held in their UTF-8 encoding.  The CPF validator
      takes a Python [str] in full, as the sequence of its code points
      ([Uni.t]): [\D] and [int] tell the decimal digits of every script.
    - A Python exception is a value of [exception]; code that may raise lives
      in the error monad [exc].
    - A spreadsheet cell is [option A]: [None] is the missing value (NaN); a
      present cell of a schema column holds a value of the column's declared
      type.  What the type inference of pandas and the coercion of pandera do
      to a cell of another type is not modelled, and the failures pandera
      adds when a whole column cannot be coerced are left out of the failure
      table: they fall on rows that fail a check of that column anyway.
    - Console output ([print]) is not modelled. *)

From Stdlib Require Import String Ascii List ZArith QArith Bool Arith Lia DecimalString.
From stdpp Require Import gmap strings list sorting.

Local Open Scope string_scope.
Local Open Scope nat_scope.

(* String concatenation is left to compute under [simpl]. *)
#[local] Arguments String.append !s1 s2 : simpl nomatch.

(** ** Exceptions and the error monad *)

Inductive valor : Type :=
| VStr (s : string)
| VFloat (q : Q)
| VInt (z : Z).

Record Failure : Type := mkFailure {
  index : option nat;
  column : option string;
  check : string;
  failure_case : option valor
}.

Inductive exception : Type :=
| ValueError
| IndexError
| TypeError
| FileNotFoundError
| BadZipFile
| IllegalCharacterError
| SchemaErrors (failure_cases : list Failure).

Inductive exc (A : Type) : Type :=
| Ok (a : A)
| Raise (e : exception).
Arguments Ok {A} a.
Arguments Raise {A} e.

#[global] Instance exc_ret : MRet exc := fun A a => Ok a.

#[global] Instance exc_bind : MBind exc := fun A B f m =>
  match m with
  | Ok a => f a
  | Raise e => Raise e
  end.

(** ** Python strings *)

Module Py.

(** [c.isspace()] for a code point below 256. *)
Definition isspace (c : ascii) : bool :=
  let n := nat_of_ascii c in
  ((9 <=? n) && (n <=? 13)) || ((28 <=? n) && (n <=? 32))
  || (n =? 133) || (n =? 160).

(** [c.isdecimal()], which is what [\d] matches, for a code point below 256. *)
Definition isdigit (c : ascii) : bool :=
  let n := nat_of_ascii c in (48 <=? n) && (n <=? 57).

Fixpoint lstrip (s : string) : string :=
  match s with
  | String c s' => if isspace c then lstrip s' else s
  | EmptyString => EmptyString
  end.

Fixpoint rstrip (s : string) : string :=
  match s with
  | String c s' =>
      match rstrip s' with
      | EmptyString => if isspace c then EmptyString else String c EmptyString
      | r => String c r
      end
  | EmptyString => EmptyString
  end.

Definition strip (s : string) : string := rstrip (lstrip s).

(** The objects a validator can be handed: a string, [None] or NaN. *)
Inductive object : Type :=
| PyStr (s : string)
| PyNone
| PyNaN.

(** [str(o)] *)
Definition str (o : object) : string :=
  match o with
  | PyStr s => s
  | PyNone => "None"
  | PyNaN => "nan"
  end.

(** [pd.isna(o)] *)
Definition isna (o : object) : bool :=
  match o with
  | PyStr _ => false
  | PyNone | PyNaN => true
  end.

End Py.

(** ** Python strings in full

    A [str] as the sequence of its code points.  The decimal digits are the
    characters of category Nd, which is what [\D] leaves in place and what
    [int] reads; they come in runs of ten, from the zero of a script to its
    nine (Unicode 14.0, the character database of Python 3.11). *)

Module Uni.

Definition t : Type := list N.

(** A text of code points below 256, as a [str]. *)
Definition of_string (s : string) : t := map N_of_ascii (list_ascii_of_string s).

(** The code points [c] with [c.isspace()]: what [strip] removes. *)
Definition whitespace : list N :=
  [9; 10; 11; 12; 13; 28; 29; 30; 31; 32; 133; 160; 5760; 8192; 8193; 8194; 8195; 8196;
   8197; 8198; 8199; 8200; 8201; 8202; 8232; 8233; 8239; 8287; 12288]%N.

Definition isspace (c : N) : bool := bool_decide (c ∈ whitespace).

(** The zero of each run of decimal digits. *)
Definition zeros : list N :=
  [48; 1632; 1776; 1984; 2406; 2534; 2662; 2790; 2918; 3046; 3174; 3302; 3430; 3558; 3664;
   3792; 3872; 4160; 4240; 6112; 6160; 6470; 6608; 6784; 6800; 6992; 7088; 7232; 7248;
   42528; 43216; 43264; 43472; 43504; 43600; 44016; 65296; 66720; 68912; 69734; 69872;
   69942; 70096; 70384; 70736; 70864; 71248; 71360; 71472; 71904; 72016; 72784; 73040;
   73120; 92768; 92864; 93008; 120782; 120792; 120802; 120812; 120822; 123200; 123632;
   125264; 130032]%N.

(** The value of a decimal digit; [None] for any other character. *)
Definition decimal (c : N) : option Z :=
  match List.find (fun z => (z <=? c)%N && (c <? z + 10)%N) zeros with
  | Some z => Some (Z.of_N (c - z))
  | None => None
  end.

(** [c.isdecimal()], which is what [\d] matches. *)
Definition isdecimal (c : N) : bool :=
  match decimal c with Some _ => true | None => false end.

Fixpoint lstrip (s : t) : t :=
  match s with
  | c :: s' => if isspace c then lstrip s' else s
  | [] => []
  end.

Fixpoint rstrip (s : t) : t :=
  match s with
  | c :: s' =>
      match rstrip s' with
      | [] => if isspace c then [] else [c]
      | r => c :: r
      end
  | [] => []
  end.

Definition strip (s : t) : t := rstrip (lstrip s).

(** [int(c)] for a one-character string. *)
Definition int (c : N) : exc Z :=
  match decimal c with
  | Some d => Ok d
  | None => Raise ValueError
  end.

(** [s[i]] *)
Definition getitem (s : t) (i : nat) : exc N :=
  match s !! i with
  | Some c => Ok c
  | None => Raise IndexError
  end.

(** [s[:n]] *)
Definition slice_to (n : nat) (s : t) : t := firstn n s.

(** [c * n] *)
Definition repeat (c : N) (n : nat) : t := replicate n c.

(** [re.sub(r'\D', '', s)] *)
Definition sub_nondigit (s : t) : t := List.filter isdecimal s.

(** [a == b] *)
Definition eqb (a b : t) : bool := bool_decide (a = b).

(** The objects a validator can be handed: a string, [None] or NaN. *)
Inductive object : Type :=
| PyStr (s : t)
| PyNone
| PyNaN.

(** [str(o)] *)
Definition str (o : object) : t :=
  match o with
  | PyStr s => s
  | PyNone => of_string "None"
  | PyNaN => of_string "nan"
  end.

(** [pd.isna(o)] *)
Definition isna (o : object) : bool :=
  match o with
  | PyStr _ => false
  | PyNone | PyNaN => true
  end.

End Uni.

(** ** The CPF check digits *)

(** The body of the [for i, digito in enumerate(cpf_parcial)] loop, with the
    running index [i] and the accumulator [soma]. *)
Fixpoint soma_loop (len : Z) (i : Z) (cpf_parcial : Uni.t) (soma : Z) : exc Z :=
  match cpf_parcial with
  | digito :: rest =>
      d ← Uni.int digito;
      soma_loop len (i + 1) rest (soma + d * (len + 1 - i))%Z
  | [] => Ok soma
  end.

Definition _calcular_digito_verificador (cpf_parcial : Uni.t) : exc Z :=
  soma ← soma_loop (Z.of_nat (length cpf_parcial)) 0 cpf_parcial 0;
  let resto := (soma mod 11)%Z in
  Ok (if (resto <? 2)%Z then 0%Z else (11 - resto)%Z).

Definition validar_cpf_individual (cpf : Uni.object) : exc bool :=
  let cpf_str := Uni.strip (Uni.str cpf) in
  if Uni.isna cpf || Uni.eqb cpf_str [] || Uni.eqb cpf_str (Uni.of_string "nan") then Ok false
  else
    let cpf_limpo := Uni.sub_nondigit cpf_str in
    if negb (length cpf_limpo =? 11) then Ok false
    else
      c0 ← Uni.getitem cpf_limpo 0;
      if Uni.eqb cpf_limpo (Uni.repeat c0 11) then Ok false
      else
        digito1 ← _calcular_digito_verificador (Uni.slice_to 9 cpf_limpo);
        c9 ← Uni.getitem cpf_limpo 9;
        d9 ← Uni.int c9;
        if negb (digito1 =? d9)%Z then Ok false
        else
          digito2 ← _calcular_digito_verificador (Uni.slice_to 10 cpf_limpo);
          c10 ← Uni.getitem cpf_limpo 10;
          d10 ← Uni.int c10;
          if negb (digito2 =? d10)%Z then Ok false
          else Ok true.

Definition validar_cpf (serie : list Uni.t) : exc (list bool) :=
  mapM (fun s => validar_cpf_individual (Uni.PyStr s)) serie.

(** ** Regular expressions: the fragment of [re] the email pattern uses *)

Module Re.

(** One member of a bracketed set: a range [lo-hi] or a single character. *)
Inductive item : Type :=
| Range (lo hi : ascii)
| Single (c : ascii).

Inductive regex : Type :=
| Bol                          (* ^ *)
| Eol                          (* $ *)
| Lit (c : ascii)              (* a literal character, also an escaped one *)
| Set_ (items : list item)     (* [...] *)
| Seq (r1 r2 : regex)          (* r1 r2 *)
| Rep (min : nat) (r : regex). (* r{min,}; r+ is r{1,} *)

Definition in_item (a : ascii) (it : item) : bool :=
  match it with
  | Range lo hi => (nat_of_ascii lo <=? nat_of_ascii a) && (nat_of_ascii a <=? nat_of_ascii hi)
  | Single c => Ascii.eqb a c
  end.

Definition in_set (items : list item) (a : ascii) : bool := existsb (in_item a) items.

(** Where [$] succeeds without the MULTILINE flag: at the end of the string,
    and just before a newline that is the last character. *)
Definition at_end (s : string) : bool :=
  match s with
  | EmptyString => true
  | String c EmptyString => Ascii.eqb c "010"%char
  | _ => false
  end.

(** One repetition loop: [body] is the matcher of the repeated expression.  A
    round is tried first (greedy); the loop may stop once [min] rounds are
    done.  A round that consumes nothing is not repeated, so the rounds are at
    most the characters left, which is what [fuel] counts from. *)
Fixpoint rep_loop (body : nat -> string -> (nat -> string -> bool) -> bool)
    (k : nat -> string -> bool) (fuel min pos : nat) (s : string) : bool :=
  match fuel with
  | O => false
  | S fuel' =>
      body pos s
        (fun pos' s' =>
           (String.length s' <? String.length s) && rep_loop body k fuel' (Nat.pred min) pos' s')
      || ((min =? 0) && k pos s)
  end.

(** The backtracking matcher: [exec r pos s k] tries [r] at offset [pos], where
    [s] is the text from [pos] on, and hands each way of matching to the
    continuation [k]. *)
Fixpoint exec (r : regex) (pos : nat) (s : string) (k : nat -> string -> bool) : bool :=
  match r with
  | Bol => (pos =? 0) && k pos s
  | Eol => at_end s && k pos s
  | Lit c =>
      match s with
      | String a s' => Ascii.eqb a c && k (S pos) s'
      | EmptyString => false
      end
  | Set_ items =>
      match s with
      | String a s' => in_set items a && k (S pos) s'
      | EmptyString => false
      end
  | Seq r1 r2 => exec r1 pos s (fun pos' s' => exec r2 pos' s' k)
  | Rep min r' => rep_loop (exec r') k (S (String.length s)) min pos s
  end.

(** What it is for [r] to match from [(pos, s)] up to [(pos', s')]. *)
Inductive matches : regex -> nat -> string -> nat -> string -> Prop :=
| m_bol s : matches Bol 0 s 0 s
| m_eol pos s : at_end s = true -> matches Eol pos s pos s
| m_lit c pos s : matches (Lit c) pos (String c s) (S pos) s
| m_set items a pos s :
    in_set items a = true -> matches (Set_ items) pos (String a s) (S pos) s
| m_seq r1 r2 pos s pos1 s1 pos2 s2 :
    matches r1 pos s pos1 s1 -> matches r2 pos1 s1 pos2 s2 ->
    matches (Seq r1 r2) pos s pos2 s2
| m_rep_stop r pos s : matches (Rep 0 r) pos s pos s
| m_rep_more min r pos s pos1 s1 pos2 s2 :
    matches r pos s pos1 s1 -> String.length s1 < String.length s ->
    matches (Rep (Nat.pred min) r) pos1 s1 pos2 s2 ->
    matches (Rep min r) pos s pos2 s2.

(** [bool(re.match(pattern, s))] *)
Definition match_ (pattern : regex) (s : string) : bool :=
  exec pattern 0 s (fun _ _ => true).

End Re.

(** ** The email validator *)

Definition az : Re.item := Re.Range "a" "z".
Definition AZ : Re.item := Re.Range "A" "Z".
Definition d09 : Re.item := Re.Range "0" "9".

(** [r'^[a-zA-Z0-9._%+-]+@[a-zA-Z0-9.-]+\.[a-zA-Z]{2,}$'] *)
Definition padrao : Re.regex :=
  Re.Seq Re.Bol
 (Re.Seq (Re.Rep 1 (Re.Set_ [az; AZ; d09; Re.Single "."; Re.Single "_"; Re.Single "%";
                              Re.Single "+"; Re.Single "-"]))
 (Re.Seq (Re.Lit "@")
 (Re.Seq (Re.Rep 1 (Re.Set_ [az; AZ; d09; Re.Single "."; Re.Single "-"]))
 (Re.Seq (Re.Lit ".")
 (Re.Seq (Re.Rep 2 (Re.Set_ [az; AZ]))
         Re.Eol))))).

Definition validar_email_individual (email : Py.object) : bool :=
  if Py.isna email || String.eqb (Py.strip (Py.str email)) EmptyString
     || String.eqb (Py.strip (Py.str email)) "nan"
  then false
  else Re.match_ padrao (Py.str email).

Definition validar_email (serie : list string) : list bool :=
  map (fun s => validar_email_individual (Py.PyStr s)) serie.


(** ** Tables: records, frames, checks and columns *)

(** One row of the sheet.  A field is [None] where the cell is empty. *)
Record Registro : Type := mkRegistro {
  nome : option string;
  cpf : option string;
  email : option string;
  valor_contrato : option Q;
  idade : option Z
}.

(** A frame: the column labels present, and the rows with their index label.
    Where a column label is not among [columns], the frame has no such column
    and the field of that name is not part of the frame. *)
Record DataFrame : Type := mkDataFrame {
  columns : list string;
  rows : list (nat * Registro)
}.

(** How a cell of each declared type is shown in [failure_case]. *)
Class Dtype (A : Type) : Type := to_valor : A -> valor.
#[global] Instance dtype_str : Dtype string := VStr.
#[global] Instance dtype_float : Dtype Q := VFloat.
#[global] Instance dtype_int : Dtype Z := VInt.

(** The comparison of a numeric type. *)
Class Numeric (A : Type) : Type := num_leb : A -> A -> bool.
#[global] Instance numeric_float : Numeric Q := Qle_bool.
#[global] Instance numeric_int : Numeric Z := Z.leb.

(** [Check(fn, error=...)]: [fn] maps the series to one boolean per element. *)
Record Check (A : Type) : Type := mkCheck {
  check_fn : list A -> exc (list bool);
  error : string
}.
Arguments mkCheck {A} _ _.
Arguments check_fn {A} _ _.
Arguments error {A} _.

Definition str_nat (n : nat) : string := NilEmpty.string_of_uint (Nat.to_uint n).

Module Check_.

Definition str_length (min_value max_value : nat) : Check string :=
  mkCheck
    (fun serie => Ok (map (fun s => (min_value <=? String.length s)
                                    && (String.length s <=? max_value)) serie))
    ("str_length(" ++ str_nat min_value ++ ", " ++ str_nat max_value ++ ")").

Definition greater_than_or_equal_to {A} `{Numeric A} (min_value : A) (error : string) : Check A :=
  mkCheck (fun serie => Ok (map (fun x => num_leb min_value x) serie)) error.

Definition less_than_or_equal_to {A} `{Numeric A} (max_value : A) (error : string) : Check A :=
  mkCheck (fun serie => Ok (map (fun x => num_leb x max_value) serie)) error.

End Check_.

Record Column (A : Type) : Type := mkColumn {
  checks : list (Check A);
  nullable : bool;
  coerce : bool;
  description : string
}.
Arguments mkColumn {A} _ _ _ _.
Arguments checks {A} _.
Arguments nullable {A} _.
Arguments coerce {A} _.
Arguments description {A} _.

(** The columns of the schema, in the order they are declared. *)
Record DataFrameSchema : Type := mkSchema {
  col_nome : Column string;
  col_cpf : Column string;
  col_email : Column string;
  col_valor_contrato : Column Q;
  col_idade : Column Z;
  strict : bool;
  coerce_all : bool
}.

(** The text of a [cpf] cell is handed to the validator as a [str]. *)
Definition schema : DataFrameSchema := {|
  col_nome := mkColumn [Check_.str_length 1 255] false true "Nome completo do cliente";
  col_cpf := mkColumn [mkCheck (fun serie => validar_cpf (map Uni.of_string serie))
                         "CPF inválido"] false true
               "CPF do cliente (com ou sem formatação)";
  col_email := mkColumn [mkCheck (fun serie => Ok (validar_email serie)) "Email inválido"]
                 false true "Email do cliente";
  col_valor_contrato :=
    mkColumn [Check_.greater_than_or_equal_to (0 : Q) "Valor do contrato não pode ser negativo"]
      false true "Valor do contrato em reais";
  col_idade :=
    mkColumn [Check_.greater_than_or_equal_to 1%Z "Idade deve ser maior ou igual a 1";
              Check_.less_than_or_equal_to 150%Z "Idade deve ser menor ou igual a 100 anos"]
      false true "Idade do cliente";
  strict := false;
  coerce_all := true
|}.

(** The keys of the schema dictionary, in declaration order. *)
Definition schema_columns : list string :=
  ["nome"; "cpf"; "email"; "valor_contrato"; "idade"].

(** ** The validation of a frame against the schema ([lazy=True]) *)

(** The failures of one check on the non-null cells of a column: one per
    element the check maps to [False]; a check that raises is itself recorded,
    with no row index. *)
Definition run_check {A} `{Dtype A} (name : string) (present : list (nat * A))
    (chk : Check A) : list Failure :=
  match check_fn chk (present.*2) with
  | Ok results =>
      omap (fun '((i, x), passed) =>
              if passed : bool then None
              else Some (mkFailure (Some i) (Some name) (error chk) (Some (to_valor x))))
           (zip present results)
  | Raise _ => [mkFailure None (Some name) (error chk) None]
  end.

(** The cells of a series that are not empty, with their index. *)
Definition present_cells {A} (serie : list (nat * option A)) : list (nat * A) :=
  omap (fun '(i, c) => match c with Some x => Some (i, x) | None => None end) serie.

(** The failures of one column: the empty cells where it is not nullable, then
    every check on the cells that are not empty. *)
Definition validate_column {A} `{Dtype A} (name : string) (col : Column A)
    (serie : list (nat * option A)) : list Failure :=
  let nulls :=
    if nullable col then []
    else omap (fun '(i, c) =>
                 match c with
                 | None => Some (mkFailure (Some i) (Some name) "not_nullable" None)
                 | Some _ => None
                 end) serie in
  nulls ++ concat (map (run_check name (present_cells serie)) (checks col)).

(** A declared column that is absent from the frame is a failure of the frame
    as a whole, with no row index. *)
Definition column_in_dataframe (df : DataFrame) (name : string) : list Failure :=
  if bool_decide (name ∈ columns df) then []
  else [mkFailure None None "column_in_dataframe" (Some (VStr name))].

(** A declared column that is present is validated cell by cell. *)
Definition validate_declared {A} `{Dtype A} (df : DataFrame) (name : string)
    (col : Column A) (field : Registro -> option A) : list Failure :=
  if bool_decide (name ∈ columns df)
  then validate_column name col (map (fun '(i, r) => (i, field r)) (rows df))
  else [].

(** The failure table: the absent columns first, then the failures found in
    the columns that are present, both in declaration order. *)
Definition failure_cases_of (s : DataFrameSchema) (df : DataFrame) : list Failure :=
  concat (map (column_in_dataframe df) schema_columns)
  ++ validate_declared df "nome" (col_nome s) nome
  ++ validate_declared df "cpf" (col_cpf s) cpf
  ++ validate_declared df "email" (col_email s) email
  ++ validate_declared df "valor_contrato" (col_valor_contrato s) valor_contrato
  ++ validate_declared df "idade" (col_idade s) idade.

(** [schema.validate(df, lazy=True)]: every failure is collected; the frame is
    returned when there is none, [SchemaErrors] is raised otherwise. *)
Definition validate (s : DataFrameSchema) (df : DataFrame) : exc DataFrame :=
  match failure_cases_of s df with
  | [] => Ok df
  | failure_cases => Raise (SchemaErrors failure_cases)
  end.

(** ** The world outside: files and the clock *)

Record datetime : Type := mkDatetime {
  year : nat; month : nat; day : nat; hour : nat; minute : nat; second : nat
}.

(** The table of a spreadsheet file: its header row and its data rows. *)
Record Planilha : Type := mkPlanilha {
  header : list string;
  registros : list Registro
}.

(** What lies under a path where a workbook is expected: a workbook with its
    table, or a file that is no workbook at all. *)
Inductive Arquivo : Type :=
| Workbook (p : Planilha)
| NotWorkbook.

Record World : Type := mkWorld {
  excel_files : gmap string Arquivo;
  text_files : gmap string string;
  now : datetime
}.

(** The texts [read_excel] takes for a missing value (pandas' default
    [na_values]). *)
Definition na_values : list string :=
  [EmptyString; "#N/A"; "#N/A N/A"; "#NA"; "-1.#IND"; "-1.#QNAN"; "-NaN"; "-nan";
   "1.#IND"; "1.#QNAN"; "<NA>"; "N/A"; "NA"; "NULL"; "NaN"; "None"; "n/a"; "nan"; "null"].

(** A text cell as it is read. *)
Definition read_text (c : option string) : option string :=
  match c with
  | Some s => if bool_decide (s ∈ na_values) then None else Some s
  | None => None
  end.

(** The cells of a row as they are read under the given column labels. *)
Definition under (cols : list string) (r : Registro) : Registro :=
  let keep {A} (name : string) (c : option A) : option A :=
    if bool_decide (name ∈ cols) then c else None in
  mkRegistro (keep "nome" (read_text (nome r))) (keep "cpf" (read_text (cpf r)))
             (keep "email" (read_text (email r)))
             (keep "valor_contrato" (valor_contrato r)) (keep "idade" (idade r)).

(** [pd.read_excel(path, engine='openpyxl')]: the rows are labelled 0, 1, 2,
    ...; a file that is no workbook cannot be opened. *)
Definition read_excel (w : World) (path : string) : exc DataFrame :=
  match excel_files w !! path with
  | Some (Workbook p) =>
      Ok (mkDataFrame (header p) (imap (fun i r => (i, under (header p) r)) (registros p)))
  | Some NotWorkbook => Raise BadZipFile
  | None => Raise FileNotFoundError
  end.

(** The control characters openpyxl refuses in a text. *)
Definition illegal_character (c : ascii) : bool :=
  let n := nat_of_ascii c in
  (n <=? 8) || ((11 <=? n) && (n <=? 12)) || ((14 <=? n) && (n <=? 31)).

(** The texts openpyxl stores as error cells. *)
Definition error_codes : list string :=
  ["#NULL!"; "#DIV/0!"; "#VALUE!"; "#REF!"; "#NAME?"; "#NUM!"; "#N/A"].

(** A text of two characters or more that begins with an equals sign. *)
Definition is_formula (s : string) : bool :=
  match s with
  | String "="%char (String _ _) => true
  | _ => false
  end.

(** A text cell as openpyxl stores it: the text is cut at 32767 characters and
    refused when it holds a control character; stored as a formula or as an
    error cell it holds no value, and is read back as a missing cell. *)
Definition stored_text (c : option string) : exc (option string) :=
  match c with
  | Some s =>
      let value := String.substring 0 (N.to_nat 32767) s in
      if existsb illegal_character (list_ascii_of_string value)
      then Raise IllegalCharacterError
      else if is_formula value || bool_decide (value ∈ error_codes) then Ok None
      else Ok (Some value)
  | None => Ok None
  end.

Definition stored (r : Registro) : exc Registro :=
  n ← stored_text (nome r);
  c ← stored_text (cpf r);
  e ← stored_text (email r);
  Ok (mkRegistro n c e (valor_contrato r) (idade r)).

(** [df.to_excel(path, index=False, engine='openpyxl')] *)
Definition to_excel (df : DataFrame) (path : string) (w : World) : exc World :=
  registros ← mapM stored ((rows df).*2);
  Ok (mkWorld (<[path := Workbook (mkPlanilha (columns df) registros)]> (excel_files w))
              (text_files w) (now w)).

(** ** [validar_dados] *)

Definition validar_dados (w : World) (arquivo_entrada : string)
    : exc (DataFrame * list Failure) :=
  df ← read_excel w arquivo_entrada;
  match validate schema df with
  | Ok dados_validados => Ok (dados_validados, [])
  | Raise (SchemaErrors failure_cases) =>
      let erros_df := List.filter (fun e => bool_decide (is_Some (index e))) failure_cases in
      let linhas_com_erro : gset nat := list_to_set (omap index erros_df) in
      let dados_validos :=
        mkDataFrame (columns df)
          (List.filter (fun '(i, _) => negb (bool_decide (i ∈ linhas_com_erro))) (rows df)) in
      Ok (dados_validos, erros_df)
  | Raise e => Raise e
  end.

(** ** Grouping, as [DataFrame.groupby] does it *)

(** The groups are kept in ascending key order; a row joins the end of its
    group, so that a group lists its rows in their original order. *)
Fixpoint add_to_group {K} (cmp : K -> K -> comparison) (k : K) (x : Failure)
    (gs : list (K * list Failure)) : list (K * list Failure) :=
  match gs with
  | [] => [(k, [x])]
  | (k', g) :: gs' =>
      match cmp k k' with
      | Eq => (k', (g ++ [x])%list) :: gs'
      | Lt => (k, [x]) :: gs
      | Gt => (k', g) :: add_to_group cmp k x gs'
      end
  end.

(** [erros.groupby(key)]: the rows whose key is missing belong to no group. *)
Definition groupby {K} (cmp : K -> K -> comparison) (key : Failure -> option K)
    (erros : list Failure) : list (K * list Failure) :=
  fold_left (fun gs x => match key x with
                         | Some k => add_to_group cmp k x gs
                         | None => gs
                         end) erros [].

(** [.size()] *)
Definition size_ {K} (gs : list (K * list Failure)) : list (K * nat) :=
  map (fun '(k, g) => (k, length g)) gs.

(** ** The summary of [main]: [sort_values(ascending=False)] *)

(** A stable ascending sort by count. *)
Fixpoint insert_by_count {K} (x : K * nat) (l : list (K * nat)) : list (K * nat) :=
  match l with
  | [] => [x]
  | y :: l' => if x.2 <=? y.2 then x :: l else y :: insert_by_count x l'
  end.

Fixpoint argsort {K} (l : list (K * nat)) : list (K * nat) :=
  match l with
  | [] => []
  | x :: l' => insert_by_count x (argsort l')
  end.

(** Descending order.  The sort pandas runs by default is not a stable one:
    the order it leaves between equal counts is not specified.  What is
    computed here is what it does on the handful of entries a summary has
    (the values reversed, an insertion sort in ascending order, the result
    reversed). *)
Definition sort_values_descending {K} (l : list (K * nat)) : list (K * nat) :=
  rev (argsort (rev l)).

(** [resumo = erros.groupby('column').size().sort_values(ascending=False)] *)
Definition resumo (erros : list Failure) : list (string * nat) :=
  sort_values_descending (size_ (groupby String.compare column erros)).

(** ** The error report *)

Definition nl : string := String "010"%char EmptyString.

(** [s * n] *)
Fixpoint str_mul (s : string) (n : nat) : string :=
  match n with
  | O => EmptyString
  | S n' => s ++ str_mul s n'
  end.

Definition str_Z (z : Z) : string := NilEmpty.string_of_int (Z.to_int z).

(** A number on at least [width] digits, padded with zeros on the left. *)
Definition zero_pad (width n : nat) : string :=
  let s := str_nat n in str_mul "0" (width - String.length s) ++ s.

(** [t.strftime('%d/%m/%Y %H:%M:%S')] *)
Definition strftime_report (t : datetime) : string :=
  zero_pad 2 (day t) ++ "/" ++ zero_pad 2 (month t) ++ "/" ++ zero_pad 4 (year t) ++ " "
  ++ zero_pad 2 (hour t) ++ ":" ++ zero_pad 2 (minute t) ++ ":" ++ zero_pad 2 (second t).

(** [t.strftime("%Y%m%d_%H%M%S")] *)
Definition strftime_file (t : datetime) : string :=
  zero_pad 4 (year t) ++ zero_pad 2 (month t) ++ zero_pad 2 (day t) ++ "_"
  ++ zero_pad 2 (hour t) ++ zero_pad 2 (minute t) ++ zero_pad 2 (second t).

Section Relatorio.

(** How Python prints a float. *)
Variable repr_float : Q -> string.

Definition format_valor (v : valor) : string :=
  match v with
  | VStr s => s
  | VFloat q => repr_float q
  | VInt z => str_Z z
  end.

(** The lines written before the loop; the clock is read here. *)
Definition report_header (w : World) (erros : list Failure) : string :=
  str_mul "=" 80 ++ nl
  ++ "RELATÓRIO DE ERROS - VALIDAÇÃO DE DADOS DE CLIENTES" ++ nl
  ++ str_mul "=" 80 ++ nl
  ++ "Data/Hora: " ++ strftime_report (now w) ++ nl
  ++ "Total de erros: " ++ str_nat (length erros) ++ nl
  ++ str_mul "=" 80 ++ nl ++ nl.

(** The lines written for one failure. *)
Definition report_entry (erro : Failure) : string :=
  nl ++ "  Campo: " ++ match column erro with Some c => c | None => "None" end ++ nl
  ++ "  Erro: " ++ check erro ++ nl
  ++ match failure_case erro with
     | Some v => "  Valor: " ++ format_valor v ++ nl
     | None => EmptyString
     end.

(** The lines written for one group of the loop over [erros.groupby('index')]. *)
Definition report_group (g : nat * list Failure) : string :=
  nl ++ str_mul "─" 80 ++ nl
  ++ "LINHA " ++ str_nat (g.1 + 2) ++ nl
  ++ str_mul "─" 80 ++ nl
  ++ String.concat EmptyString (map report_entry g.2).

Definition report_body (erros : list Failure) : string :=
  String.concat EmptyString (map report_group (groupby Nat.compare index erros)).

Definition report_footer : string :=
  nl ++ str_mul "=" 80 ++ nl ++ "FIM DO RELATÓRIO" ++ nl ++ str_mul "=" 80 ++ nl.

Definition gerar_relatorio_erros (erros : list Failure) (arquivo_saida : string)
    (w : World) : World :=
  mkWorld (excel_files w)
          (<[arquivo_saida := report_header w erros ++ report_body erros ++ report_footer]>
             (text_files w))
          (now w).

(** ** [main] *)

(** File names are relative to the directory of the script.  The result is the
    world after the run and the summary that is shown.  A frame is [empty]
    when it has no row or no column. *)
Definition main (w : World) : exc (World * list (string * nat)) :=
  let arquivo_entrada := "dados_clientes.xlsx" in
  let arquivo_relatorio := "relatorio_erros_" ++ strftime_file (now w) ++ ".txt" in
  let arquivo_saida_validos := "dados_clientes_validos.xlsx" in
  if negb (bool_decide (is_Some (excel_files w !! arquivo_entrada))) then Ok (w, [])
  else
    '(dados_validos, erros) ← validar_dados w arquivo_entrada;
    let '(w1, shown) :=
      match erros with
      | [] => (w, [])
      | _ => (gerar_relatorio_erros erros arquivo_relatorio w, resumo erros)
      end in
    w2 ← match rows dados_validos, columns dados_validos with
         | [], _ | _, [] => Ok w1
         | _, _ => to_excel dados_validos arquivo_saida_validos w1
         end;
    Ok (w2, shown).

End Relatorio.

(** * Reference definitions, in the words of the specification *)

Module Spec.

(** ** The tax identifier *)


(** The value of a digit. *)
Definition digit_value (c : N) : Z :=
  match Uni.decimal c with
  | Some d => d
  | None => 0%Z
  end.

(** The digits that remain once every other character is removed: the
    characters, and their values. *)
Definition digit_chars (s : Uni.t) : list N := List.filter Uni.isdecimal s.

Definition digits_of (s : Uni.t) : list Z := map digit_value (digit_chars s).

(** [sum = Σ digit[i] * (L + 1 - i)] for [i = 0..L-1]. *)
Definition weighted_sum (digits : list Z) : Z :=
  let L := length digits in
  foldr Z.add 0%Z
    (map (fun i => (nth i digits 0 * (Z.of_nat L + 1 - Z.of_nat i))%Z) (seq 0 L)).

(** The expected digit: 0 if the remainder is below 2, else 11 minus it. *)
Definition check_digit (digits : list Z) : Z :=
  let remainder := (weighted_sum digits mod 11)%Z in
  if (remainder <? 2)%Z then 0%Z else (11 - remainder)%Z.




(** ** Texts *)

Definition chars (s : string) : list ascii := list_ascii_of_string s.

(** Empty, or made of whitespace only. *)
Definition blank (s : string) : Prop := Forall (fun c => Py.isspace c = true) (chars s).

(** ** The email address *)

Definition is_alpha (c : ascii) : bool :=
  let n := nat_of_ascii c in
  ((97 <=? n) && (n <=? 122)) || ((65 <=? n) && (n <=? 90)).

Definition is_alnum (c : ascii) : bool := is_alpha c || Py.isdigit c.

Definition one_of (set : string) (c : ascii) : bool := existsb (Ascii.eqb c) (chars set).

(** [alnum . _ % + -] *)
Definition local_char (c : ascii) : bool := is_alnum c || one_of "._%+-" c.

(** The characters of the labels of a domain, dots included. *)
Definition domain_char (c : ascii) : bool := is_alnum c || one_of ".-" c.

Definition made_of (p : ascii -> bool) (s : string) : Prop :=
  Forall (fun c => p c = true) (chars s).

(** The entire string is: one or more local characters, an at sign, a domain
    with at least one dot, whose final label is two or more letters. *)
Definition email_valid (s : string) : Prop :=
  exists local_part labels final_label : string,
    s = local_part ++ "@" ++ labels ++ "." ++ final_label
    /\ 1 <= String.length local_part /\ made_of local_char local_part
    /\ 1 <= String.length labels /\ made_of domain_char labels
    /\ 2 <= String.length final_label /\ made_of is_alpha final_label.

(** Whitespace at the start or at the end. *)
Definition padded (s : string) : Prop :=
  (exists c, head (chars s) = Some c /\ Py.isspace c = true)
  \/ (exists c, last (chars s) = Some c /\ Py.isspace c = true).

(** ** The partition of the records *)

(** The row index appears in some failure. *)
Definition in_failure (erros : list Failure) (i : nat) : bool :=
  existsb (fun f => bool_decide (index f = Some i)) erros.

(** The number of distinct row indices that appear in the failures. *)
Definition distinct_rows (erros : list Failure) : nat :=
  length (remove_dups (omap index erros)).

(** ** Fields and their checks *)

(** The fields the schema declares. *)
Inductive campo : Type := Nome | Cpf | Email | ValorContrato | Idade.

Definition campo_name (c : campo) : string :=
  match c with
  | Nome => "nome"
  | Cpf => "cpf"
  | Email => "email"
  | ValorContrato => "valor_contrato"
  | Idade => "idade"
  end.

(** The failures of one field of a record, validated on its own. *)
Definition field_failures (c : campo) (r : Registro) : list Failure :=
  match c with
  | Nome => validate_column "nome" (col_nome schema) [(0, nome r)]
  | Cpf => validate_column "cpf" (col_cpf schema) [(0, cpf r)]
  | Email => validate_column "email" (col_email schema) [(0, email r)]
  | ValorContrato =>
      validate_column "valor_contrato" (col_valor_contrato schema) [(0, valor_contrato r)]
  | Idade => validate_column "idade" (col_idade schema) [(0, idade r)]
  end.

(** The record violates a check of the field. *)
Definition violates (c : campo) (r : Registro) : Prop := field_failures c r <> [].

(** ** The summary and the report *)

(** The number of failures of a field. *)
Definition count_field (a : string) (erros : list Failure) : nat :=
  length (List.filter (fun f => bool_decide (column f = Some a)) erros).

(** [a] is declared before [b] in the schema. *)
Definition declared_before (a b : string) : Prop :=
  exists i j, schema_columns !! i = Some a /\ schema_columns !! j = Some b /\ i < j.

(** Fields with equal counts appear in declaration order. *)
Definition ties_in_declaration_order (l : list (string * nat)) : Prop :=
  forall i j a b n,
    i < j -> l !! i = Some (a, n) -> l !! j = Some (b, n) -> declared_before a b.

(** The order of two entries of the summary, the first listed before the
    second: the count does not go up. *)
Definition summary_order (x y : string * nat) : Prop := y.2 <= x.2.

(** The header of the report: the title, the timestamp [t] and the number of
    failures [n]. *)
Definition header_at (t : datetime) (n : nat) : string :=
  str_mul "=" 80 ++ nl
  ++ "RELATÓRIO DE ERROS - VALIDAÇÃO DE DADOS DE CLIENTES" ++ nl
  ++ str_mul "=" 80 ++ nl
  ++ "Data/Hora: " ++ strftime_report t ++ nl
  ++ "Total de erros: " ++ str_nat n ++ nl
  ++ str_mul "=" 80 ++ nl ++ nl.

End Spec.


(** * Auxiliary definitions

    Notions the proofs below are stated with. *)

(** A check is elementwise when its result on a series is a predicate
    applied to each element. *)
Definition elementwise {A} (chk : Check A) (p : A -> bool) : Prop :=
  forall l, check_fn chk l = Ok (map p l).

(** What makes a cell fail under a column: it is empty and the column is not
    nullable, or it holds a value that some check of the column maps to false. *)
Definition cell_fails {A} (col : Column A) (c : option A) : Prop :=
  match c with
  | None => nullable col = false
  | Some x => exists chk p, In chk (checks col) /\ elementwise chk p /\ p x = false
  end.

(** The boolean the CPF validator returns. *)
Definition cpf_passes (s : string) : bool :=
  match validar_cpf_individual (Uni.PyStr (Uni.of_string s)) with
  | Ok b => b
  | Raise _ => false
  end.

(** A row fails under the columns present when one of its cells does. *)
Definition row_fails (cols : list string) (r : Registro) : Prop :=
  ("nome" ∈ cols /\ cell_fails (col_nome schema) (nome r))
  \/ ("cpf" ∈ cols /\ cell_fails (col_cpf schema) (cpf r))
  \/ ("email" ∈ cols /\ cell_fails (col_email schema) (email r))
  \/ ("valor_contrato" ∈ cols /\ cell_fails (col_valor_contrato schema) (valor_contrato r))
  \/ ("idade" ∈ cols /\ cell_fails (col_idade schema) (idade r)).

(** The frame [read_excel] builds from a sheet. *)
Definition frame_of (p : Planilha) : DataFrame :=
  mkDataFrame (header p) (imap (fun i r => (i, under (header p) r)) (registros p)).

(** The two results of [validar_dados] on a frame. *)
Definition erros_of (df : DataFrame) : list Failure :=
  List.filter (fun e => bool_decide (is_Some (index e))) (failure_cases_of schema df).

Definition validos_of (df : DataFrame) : DataFrame :=
  mkDataFrame (columns df)
    (List.filter
       (fun '(i, _) => negb (bool_decide (i ∈ (list_to_set (omap index (erros_of df)) : gset nat))))
       (rows df)).

(** The world [w] with the sheet [p] stored under [path]. *)
Definition with_excel (w : World) (path : string) (p : Planilha) : World :=
  mkWorld (<[path := Workbook p]> (excel_files w)) (text_files w) (now w).

(** The column of the schema a field names, with the cell of a record in it,
    as a statement about that cell. *)
Definition campo_fails (c : Spec.campo) (r : Registro) : Prop :=
  match c with
  | Spec.Nome => cell_fails (col_nome schema) (nome r)
  | Spec.Cpf => cell_fails (col_cpf schema) (cpf r)
  | Spec.Email => cell_fails (col_email schema) (email r)
  | Spec.ValorContrato => cell_fails (col_valor_contrato schema) (valor_contrato r)
  | Spec.Idade => cell_fails (col_idade schema) (idade r)
  end.

(** A world with no file. *)
Definition empty_world : World := mkWorld ∅ ∅ (mkDatetime 2024 1 15 10 30 0).

(** The rows of a group: those whose key compares equal to [k]. *)
Definition in_group {K} (cmp : K -> K -> comparison) (key : Failure -> option K)
    (k : K) (x : Failure) : bool :=
  match key x with
  | Some k' => match cmp k' k with Eq => true | _ => false end
  | None => false
  end.

Definition group_of {K} (cmp : K -> K -> comparison) (key : Failure -> option K)
    (k : K) (l : list Failure) : list Failure :=
  List.filter (in_group cmp key k) l.

(** Two groups, or two counts, in strictly ascending key order. *)
Definition key_lt {K V} (cmp : K -> K -> comparison) (x y : K * V) : Prop :=
  cmp x.1 y.1 = Lt.

(** The order a stable ascending sort by count leaves, over rows that were in
    the order [S]. *)
Definition stable_order {K} (S : relation (K * nat)) : relation (K * nat) :=
  fun x y => x.2 < y.2 \/ (x.2 = y.2 /\ S x y).

(** What the groups are, once the rows [pre] have been added: in strictly
    ascending key order, each the rows of its key, one for every key met. *)
Definition grouped {K} (cmp : K -> K -> comparison) (key : Failure -> option K)
    (pre : list Failure) (gs : list (K * list Failure)) : Prop :=
  StronglySorted (key_lt cmp) gs
  /\ (forall k g, (k, g) ∈ gs -> g = group_of cmp key k pre /\ g <> [])
  /\ (forall k, group_of cmp key k pre <> [] -> k ∈ gs.*1).

(** * Properties *)

(** ** Strings *)

Lemma decimal_range (c : N) (d : Z) : Uni.decimal c = Some d -> (0 <= d <= 9)%Z.
Proof.
  unfold Uni.decimal.
  destruct (List.find _ Uni.zeros) as [z|] eqn:E; [|discriminate].
  apply List.find_some in E as [_ E]. apply andb_true_iff in E as [E1 E2].
  apply N.leb_le in E1. apply N.ltb_lt in E2. intros [= <-]. lia.
Qed.

Lemma isspace_not_isdecimal (c : N) : Uni.isspace c = true -> Uni.isdecimal c = false.
Proof.
  unfold Uni.isspace. intros H. apply bool_decide_eq_true in H.
  assert (Hall : Forall (fun c => Uni.isdecimal c = false) Uni.whitespace)
    by (repeat constructor).
  rewrite Forall_forall in Hall. now apply Hall.
Qed.

Lemma sub_nondigit_lstrip (s : Uni.t) :
  Uni.sub_nondigit (Uni.lstrip s) = Uni.sub_nondigit s.
Proof.
  unfold Uni.sub_nondigit.
  induction s as [|c s IH]; cbn [Uni.lstrip List.filter]; [reflexivity|].
  destruct (Uni.isspace c) eqn:Hc; [|reflexivity].
  now rewrite (isspace_not_isdecimal c Hc).
Qed.

Lemma sub_nondigit_rstrip (s : Uni.t) :
  Uni.sub_nondigit (Uni.rstrip s) = Uni.sub_nondigit s.
Proof.
  unfold Uni.sub_nondigit.
  induction s as [|c s IH]; cbn [Uni.rstrip]; [reflexivity|].
  destruct (Uni.rstrip s) as [|a r] eqn:Hr.
  - cbn [List.filter] in IH. destruct (Uni.isspace c) eqn:Hc.
    + cbn [List.filter]. rewrite (isspace_not_isdecimal c Hc). exact IH.
    + cbn [List.filter]. now rewrite <- IH.
  - cbn [List.filter] in *. now rewrite IH.
Qed.

Lemma sub_nondigit_strip (s : Uni.t) :
  Uni.sub_nondigit (Uni.strip s) = Uni.sub_nondigit s.
Proof. unfold Uni.strip. now rewrite sub_nondigit_rstrip, sub_nondigit_lstrip. Qed.



Lemma sub_nondigit_all_digits (s : Uni.t) :
  Forall (fun c => Uni.isdecimal c = true) (Uni.sub_nondigit s).
Proof.
  apply List.Forall_forall. intros c Hc. now apply List.filter_In in Hc.
Qed.

Lemma int_digit (c : N) : Uni.isdecimal c = true -> Uni.int c = Ok (Spec.digit_value c).
Proof.
  unfold Uni.isdecimal, Uni.int, Spec.digit_value.
  destruct (Uni.decimal c); [reflexivity | discriminate].
Qed.

Lemma eqb_spec (a b : Uni.t) : reflect (a = b) (Uni.eqb a b).
Proof. unfold Uni.eqb. apply bool_decide_reflect. Qed.

(** ** The check digit: the loop computes the weighted sum *)

Lemma soma_loop_spec (s : Uni.t) :
  Forall (fun c => Uni.isdecimal c = true) s ->
  forall (L i acc : Z),
    soma_loop L i s acc =
    Ok (acc + foldr Z.add 0
                (map (fun j => nth j (map Spec.digit_value s) 0
                               * (L + 1 - (i + Z.of_nat j)))
                     (seq 0 (length s))))%Z.
Proof.
  induction s as [|c s IH]; intros Hd L i acc.
  - cbn. f_equal. lia.
  - inversion Hd as [|? ? Hc Hs]; subst.
    cbn [soma_loop]. rewrite (int_digit c Hc). cbn [mbind exc_bind].
    rewrite (IH Hs). f_equal.
    cbn [length map seq foldr nth].
    rewrite <- seq_shift, map_map.
    set (ds := map Spec.digit_value s).
    assert (E : forall l : list nat,
               map (fun j => (nth (S j) (Spec.digit_value c :: ds) 0
                              * (L + 1 - (i + Z.of_nat (S j))))%Z) l
               = map (fun j => (nth j ds 0 * (L + 1 - (i + 1 + Z.of_nat j)))%Z) l).
    { intros l. apply map_ext. intros j. cbn [nth]. f_equal. lia. }
    rewrite E. lia.
Qed.

Lemma calcular_digito_verificador_spec (s : Uni.t) :
  Forall (fun c => Uni.isdecimal c = true) s ->
  _calcular_digito_verificador s = Ok (Spec.check_digit (map Spec.digit_value s)).
Proof.
  intros Hd. unfold _calcular_digito_verificador.
  rewrite (soma_loop_spec s Hd). cbn [mbind exc_bind].
  unfold Spec.check_digit, Spec.weighted_sum.
  rewrite length_map, Z.add_0_l.
  assert (E : forall l : list nat,
             map (fun j => (nth j (map Spec.digit_value s) 0
                            * (Z.of_nat (length s) + 1 - (0 + Z.of_nat j)))%Z) l
             = map (fun i => (nth i (map Spec.digit_value s) 0
                            * (Z.of_nat (length s) + 1 - Z.of_nat i))%Z) l).
  { intros l. apply map_ext. intros j. f_equal. }
  now rewrite E.
Qed.

(** ** The CPF validator *)

(** The validator raises no error. *)
Lemma validar_cpf_individual_total (cpf : Uni.object) :
  exists b : bool, validar_cpf_individual cpf = Ok b.
Proof.
  destruct cpf as [s| |]; [|eexists; reflexivity..].
  unfold validar_cpf_individual. cbn [Uni.str Uni.isna orb].
  destruct (Uni.eqb (Uni.strip s) []); [eexists; reflexivity|].
  destruct (Uni.eqb (Uni.strip s) (Uni.of_string "nan")); [eexists; reflexivity|]. cbn [orb].
  pose proof (sub_nondigit_all_digits (Uni.strip s)) as Hd.
  generalize dependent (Uni.sub_nondigit (Uni.strip s)). intros l Hd.
  destruct (Nat.eqb_spec (length l) 11) as [Hl|Hl]; cbn [negb];
    [|eexists; reflexivity].
  destruct l as [|c0 [|c1 [|c2 [|c3 [|c4 [|c5 [|c6 [|c7 [|c8 [|c9 [|c10 [|? ?]]]]]]]]]]]];
    try discriminate Hl. clear Hl.
  cbn [Uni.getitem lookup list_lookup mbind exc_bind Uni.slice_to firstn].
  rewrite !Forall_cons in Hd.
  destruct Hd as (H0 & H1 & H2 & H3 & H4 & H5 & H6 & H7 & H8 & H9 & H10 & _).
  rewrite !calcular_digito_verificador_spec by (repeat constructor; assumption).
  rewrite (int_digit c9 H9), (int_digit c10 H10). cbn [mbind exc_bind].
  repeat match goal with
         | |- context [if ?c then _ else _] => destruct c
         end; eexists; reflexivity.
Qed.


(** A string that mixes scripts: ten times the digit one and the Arabic-Indic
    digit one.  Its eleven digits have the same value and are not the same
    character, and the validator accepts it. *)
Lemma validar_cpf_individual_mixed_scripts :
  let s := (replicate 10 49%N ++ [1633%N])%list in
  validar_cpf_individual (Uni.PyStr s) = Ok true
  /\ Spec.digits_of s = replicate 11 1%Z.
Proof. split; reflexivity. Qed.
(** ** Texts *)

Lemma blank_lstrip (s : string) : Spec.blank s -> Py.lstrip s = EmptyString.
Proof.
  unfold Spec.blank, Spec.chars.
  induction s as [|c s IH]; simpl; intros H; [reflexivity|].
  inversion H as [|? ? Hc Hs]; subst. rewrite Hc. now apply IH.
Qed.

Lemma blank_strip (s : string) : Spec.blank s -> Py.strip s = EmptyString.
Proof. intros H. unfold Py.strip. now rewrite (blank_lstrip s H). Qed.

(** ** The matcher finds exactly the matches *)

Lemma rep_loop_correct (body : nat -> string -> (nat -> string -> bool) -> bool)
    (r : Re.regex) (k : nat -> string -> bool) :
  (forall pos s k', body pos s k' = true <->
                    exists pos' s', Re.matches r pos s pos' s' /\ k' pos' s' = true) ->
  forall fuel min pos s,
    String.length s < fuel ->
    Re.rep_loop body k fuel min pos s = true <->
    exists pos' s', Re.matches (Re.Rep min r) pos s pos' s' /\ k pos' s' = true.
Proof.
  intros Hbody. induction fuel as [|fuel IH]; intros min pos s Hf; [lia|].
  cbn [Re.rep_loop]. rewrite orb_true_iff, Hbody. split.
  - intros [(pos1 & s1 & Hm & Hk)|Hk].
    + apply andb_true_iff in Hk as [Hlt Hk]. apply Nat.ltb_lt in Hlt.
      apply IH in Hk as (pos2 & s2 & Hm2 & Hk2); [|lia].
      exists pos2, s2. split; [|exact Hk2]. eapply Re.m_rep_more; eassumption.
    + apply andb_true_iff in Hk as [Hmin Hk]. apply Nat.eqb_eq in Hmin. subst min.
      exists pos, s. split; [constructor | exact Hk].
  - intros (pos2 & s2 & Hm & Hk). inversion Hm; subst.
    + right. now rewrite Hk.
    + left. eexists _, _. split; [eassumption|].
      apply andb_true_iff. split; [now apply Nat.ltb_lt|].
      apply IH; [lia|]. eauto.
Qed.

Lemma exec_correct (r : Re.regex) :
  forall pos s k,
    Re.exec r pos s k = true <->
    exists pos' s', Re.matches r pos s pos' s' /\ k pos' s' = true.
Proof.
  induction r as [| |c|items|r1 IH1 r2 IH2|min r IH]; intros pos s k; cbn [Re.exec].
  - rewrite andb_true_iff, Nat.eqb_eq. split.
    + intros [-> Hk]. exists 0, s. split; [constructor | exact Hk].
    + intros (pos' & s' & Hm & Hk). inversion Hm; subst. auto.
  - rewrite andb_true_iff. split.
    + intros [He Hk]. exists pos, s. split; [now constructor | exact Hk].
    + intros (pos' & s' & Hm & Hk). inversion Hm; subst. auto.
  - destruct s as [|a s]; split.
    + discriminate.
    + intros (pos' & s' & Hm & Hk). inversion Hm.
    + intros H. apply andb_true_iff in H as [Ha Hk]. apply Ascii.eqb_eq in Ha. subst a.
      exists (S pos), s. split; [constructor | exact Hk].
    + intros (pos' & s' & Hm & Hk). inversion Hm; subst.
      now rewrite Ascii.eqb_refl, Hk.
  - destruct s as [|a s]; split.
    + discriminate.
    + intros (pos' & s' & Hm & Hk). inversion Hm.
    + intros H. apply andb_true_iff in H as [Ha Hk].
      exists (S pos), s. split; [now constructor | exact Hk].
    + intros (pos' & s' & Hm & Hk). inversion Hm; subst.
      apply andb_true_iff. auto.
  - rewrite IH1. split.
    + intros (pos1 & s1 & Hm1 & H2). apply IH2 in H2 as (pos2 & s2 & Hm2 & Hk).
      exists pos2, s2. split; [econstructor; eassumption | exact Hk].
    + intros (pos2 & s2 & Hm & Hk). inversion Hm; subst.
      eexists _, _. split; [eassumption|]. apply IH2. eauto.
  - apply rep_loop_correct; [exact IH | lia].
Qed.

Lemma append_assoc (a b c : string) : (a ++ b) ++ c = a ++ (b ++ c).
Proof. induction a; simpl; congruence. Qed.

Lemma append_empty_r (a : string) : a ++ EmptyString = a.
Proof. induction a; simpl; congruence. Qed.

Lemma length_append (a b : string) :
  String.length (a ++ b) = String.length a + String.length b.
Proof. induction a; simpl; congruence. Qed.

Lemma rep_set_inv (items : list Re.item) (min pos : nat) (s : string) (pos' : nat) (s' : string) :
  Re.matches (Re.Rep min (Re.Set_ items)) pos s pos' s' ->
  exists t, s = t ++ s' /\ min <= String.length t /\ Spec.made_of (Re.in_set items) t.
Proof.
  remember (Re.Rep min (Re.Set_ items)) as r eqn:E. intros H. revert min E.
  induction H as [| | | | |r0 pos s|min0 r0 pos s pos1 s1 pos2 s2 H1 _ Hlt H2 IH2];
    intros min E; inversion E; subst.
  - exists EmptyString. repeat split; [lia | constructor].
  - inversion H1; subst.
    destruct (IH2 _ eq_refl) as (t & -> & Hmin & Hall).
    exists (String a t). repeat split.
    + simpl. lia.
    + constructor; assumption.
Qed.

Lemma rep_set_intro (items : list Re.item) (t : string) :
  Spec.made_of (Re.in_set items) t ->
  forall min pos s', min <= String.length t ->
    exists pos', Re.matches (Re.Rep min (Re.Set_ items)) pos (t ++ s') pos' s'.
Proof.
  unfold Spec.made_of, Spec.chars.
  induction t as [|a t IH]; intros Hall min pos s' Hmin.
  - simpl in Hmin. assert (min = 0) as -> by lia. exists pos. constructor.
  - inversion Hall as [|? ? Ha Ht]; subst.
    destruct (IH Ht (Nat.pred min) (S pos) s') as (pos' & Hm); [simpl in Hmin; lia|].
    exists pos'. simpl. eapply Re.m_rep_more; [now constructor | | exact Hm].
    simpl. lia.
Qed.

Lemma in_set_local (c : ascii) :
  Re.in_set [az; AZ; d09; Re.Single "."; Re.Single "_"; Re.Single "%";
             Re.Single "+"; Re.Single "-"] c = Spec.local_char c.
Proof. destruct c as [[] [] [] [] [] [] [] []]; reflexivity. Qed.

Lemma in_set_domain (c : ascii) :
  Re.in_set [az; AZ; d09; Re.Single "."; Re.Single "-"] c = Spec.domain_char c.
Proof. destruct c as [[] [] [] [] [] [] [] []]; reflexivity. Qed.

Lemma in_set_alpha (c : ascii) : Re.in_set [az; AZ] c = Spec.is_alpha c.
Proof. destruct c as [[] [] [] [] [] [] [] []]; reflexivity. Qed.

Lemma made_of_ext (p q : ascii -> bool) (s : string) :
  (forall c, p c = q c) -> Spec.made_of p s <-> Spec.made_of q s.
Proof.
  intros E. unfold Spec.made_of. split; apply List.Forall_impl; intros c; rewrite E; auto.
Qed.

Lemma at_end_inv (s : string) : Re.at_end s = true <-> s = EmptyString \/ s = nl.
Proof.
  destruct s as [|c [|a s]]; cbn [Re.at_end].
  - split; [now left | reflexivity].
  - rewrite Ascii.eqb_eq. unfold nl. split.
    + intros ->. now right.
    + intros [H|H]; [discriminate | now injection H].
  - split; [discriminate | intros [H|H]; discriminate].
Qed.

Lemma padrao_inv (s : string) (pos' : nat) (s' : string) :
  Re.matches padrao 0 s pos' s' ->
  exists l d t,
    s = l ++ "@" ++ d ++ "." ++ t ++ s' /\ Re.at_end s' = true
    /\ 1 <= String.length l /\ Spec.made_of Spec.local_char l
    /\ 1 <= String.length d /\ Spec.made_of Spec.domain_char d
    /\ 2 <= String.length t /\ Spec.made_of Spec.is_alpha t.
Proof.
  unfold padrao. intros Hm.
  repeat match goal with
         | H : Re.matches (Re.Seq _ _) _ _ _ _ |- _ => inversion H; subst; clear H
         end.
  repeat match goal with
         | H : Re.matches Re.Bol _ _ _ _ |- _ => inversion H; subst; clear H
         | H : Re.matches Re.Eol _ _ _ _ |- _ => inversion H; subst; clear H
         | H : Re.matches (Re.Lit _) _ _ _ _ |- _ => inversion H; subst; clear H
         end.
  match goal with
  | ML : Re.matches (Re.Rep 1 (Re.Set_ (_ :: _ :: _ :: _ :: _ :: _ :: _))) _ _ _ _,
    MD : Re.matches (Re.Rep 1 (Re.Set_ [_; _; _; _; _])) _ _ _ _,
    MT : Re.matches (Re.Rep 2 _) _ _ _ _ |- _ =>
      apply rep_set_inv in ML; destruct ML as (l & El & Hl1 & Hl);
      apply rep_set_inv in MD; destruct MD as (d & Ed & Hd1 & Hd);
      apply rep_set_inv in MT; destruct MT as (t & Et & Ht1 & Ht)
  end.
  exists l, d, t. subst.
  apply (made_of_ext _ _ _ in_set_local) in Hl.
  apply (made_of_ext _ _ _ in_set_domain) in Hd.
  apply (made_of_ext _ _ _ in_set_alpha) in Ht.
  repeat split; assumption.
Qed.

Lemma padrao_intro (l d t rest : string) :
  Re.at_end rest = true ->
  1 <= String.length l -> Spec.made_of Spec.local_char l ->
  1 <= String.length d -> Spec.made_of Spec.domain_char d ->
  2 <= String.length t -> Spec.made_of Spec.is_alpha t ->
  exists pos', Re.matches padrao 0 (l ++ "@" ++ d ++ "." ++ t ++ rest) pos' rest.
Proof.
  intros Hr Hl1 Hl Hd1 Hd Ht1 Ht.
  apply (made_of_ext _ _ _ in_set_local) in Hl.
  apply (made_of_ext _ _ _ in_set_domain) in Hd.
  apply (made_of_ext _ _ _ in_set_alpha) in Ht.
  destruct (rep_set_intro _ l Hl 1 0 ("@" ++ d ++ "." ++ t ++ rest) Hl1) as (p1 & M1).
  destruct (rep_set_intro _ d Hd 1 (S p1) ("." ++ t ++ rest) Hd1) as (p2 & M2).
  destruct (rep_set_intro _ t Ht 2 (S p2) rest Ht1) as (p3 & M3).
  exists p3. unfold padrao.
  eapply Re.m_seq; [constructor|].
  eapply Re.m_seq; [exact M1|].
  eapply Re.m_seq; [simpl; constructor|].
  eapply Re.m_seq; [exact M2|].
  eapply Re.m_seq; [simpl; constructor|].
  eapply Re.m_seq; [exact M3|].
  now constructor.
Qed.

(** What the pattern accepts: an address, or an address and a final newline. *)
Lemma match_padrao (s : string) :
  Re.match_ padrao s = true <-> Spec.email_valid s \/ exists s0, s = s0 ++ nl /\ Spec.email_valid s0.
Proof.
  unfold Re.match_. rewrite exec_correct. split.
  - intros (pos' & s' & Hm & _).
    apply padrao_inv in Hm as (l & d & t & -> & Hend & H).
    apply at_end_inv in Hend as [-> | ->].
    + left. exists l, d, t. now rewrite append_empty_r.
    + right. exists (l ++ "@" ++ d ++ "." ++ t). split.
      * rewrite !append_assoc. simpl. now rewrite ?append_assoc.
      * exists l, d, t. auto.
  - intros [(l & d & t & -> & H)|(s0 & -> & l & d & t & -> & H)];
      destruct H as (? & ? & ? & ? & ? & ?).
    + destruct (padrao_intro l d t EmptyString) as (p & Hm); auto.
      rewrite append_empty_r in Hm. eauto.
    + destruct (padrao_intro l d t nl) as (p & Hm); auto.
      exists p, nl. split; [|reflexivity].
      rewrite !append_assoc. simpl. rewrite ?append_assoc. exact Hm.
Qed.

(** ** What the email validator accepts *)

Lemma chars_append (a b : string) : Spec.chars (a ++ b) = (Spec.chars a ++ Spec.chars b)%list.
Proof. unfold Spec.chars. induction a; simpl; congruence. Qed.

Lemma chars_nonempty (s : string) : 1 <= String.length s -> Spec.chars s <> [].
Proof. destruct s; simpl; [lia | discriminate]. Qed.

Lemma lstrip_keeps (c : ascii) (s : string) :
  Py.isspace c = false -> In c (Spec.chars s) -> In c (Spec.chars (Py.lstrip s)).
Proof.
  unfold Spec.chars. intros Hc. induction s as [|a s IH]; simpl; [tauto|].
  intros [->|H].
  - rewrite Hc. now left.
  - destruct (Py.isspace a); [auto | now right].
Qed.

Lemma rstrip_keeps (c : ascii) (s : string) :
  Py.isspace c = false -> In c (Spec.chars s) -> In c (Spec.chars (Py.rstrip s)).
Proof.
  unfold Spec.chars. intros Hc. induction s as [|a s IH]; simpl; [tauto|].
  intros [->|H].
  - destruct (Py.rstrip s); [rewrite Hc|]; now left.
  - specialize (IH H). destruct (Py.rstrip s); [destruct IH | now right].
Qed.

Lemma strip_keeps (c : ascii) (s : string) :
  Py.isspace c = false -> In c (Spec.chars s) -> In c (Spec.chars (Py.strip s)).
Proof. intros Hc H. unfold Py.strip. now apply rstrip_keeps, lstrip_keeps. Qed.

Lemma email_valid_at (s : string) : Spec.email_valid s -> In "@"%char (Spec.chars s).
Proof.
  intros (l & d & t & -> & _). rewrite chars_append. apply List.in_or_app. right. now left.
Qed.

(** The first character of an address is a local character. *)
Lemma email_valid_head (s : string) :
  Spec.email_valid s -> exists c, head (Spec.chars s) = Some c /\ Spec.local_char c = true.
Proof.
  intros (l & d & t & -> & Hl1 & Hl & _). rewrite chars_append.
  destruct l as [|c l]; [simpl in Hl1; lia|].
  exists c. split; [reflexivity|]. now inversion Hl.
Qed.

(** The last character of an address is a letter. *)
Lemma email_valid_last (s : string) :
  Spec.email_valid s -> exists c, last (Spec.chars s) = Some c /\ Spec.is_alpha c = true.
Proof.
  intros (l & d & t & -> & _ & _ & _ & _ & Ht1 & Ht).
  assert (Hne : Spec.chars t <> []) by (apply chars_nonempty; lia).
  apply last_is_Some in Hne as [c Hc]. exists c. split.
  - rewrite !chars_append.
    do 4 (apply last_app_Some; left). exact Hc.
  - apply last_Some_elem_of, list_elem_of_In in Hc.
    unfold Spec.made_of in Ht. rewrite List.Forall_forall in Ht. auto.
Qed.

Lemma local_char_not_space (c : ascii) : Spec.local_char c = true -> Py.isspace c = false.
Proof. destruct c as [[] [] [] [] [] [] [] []]; vm_compute; congruence. Qed.

Lemma is_alpha_not_space (c : ascii) : Spec.is_alpha c = true -> Py.isspace c = false.
Proof. destruct c as [[] [] [] [] [] [] [] []]; vm_compute; congruence. Qed.

(** What the validator accepts: an address, or an address and a final newline. *)
Lemma validar_email_individual_accepts (s : string) :
  validar_email_individual (Py.PyStr s) = true <->
  Spec.email_valid s \/ exists s0, s = s0 ++ nl /\ Spec.email_valid s0.
Proof.
  rewrite <- match_padrao. unfold validar_email_individual. cbn [Py.isna Py.str orb].
  split.
  - destruct (_ || _); [discriminate | auto].
  - intros Hm. pose proof Hm as Hv. apply match_padrao in Hv.
    assert (Hat : In "@"%char (Spec.chars (Py.strip s))).
    { apply strip_keeps; [reflexivity|].
      destruct Hv as [Hv|(s0 & -> & Hv)]; apply email_valid_at in Hv; [exact Hv|].
      rewrite chars_append. apply List.in_or_app. now left. }
    destruct (String.eqb_spec (Py.strip s) EmptyString) as [E|_].
    { rewrite E in Hat. destruct Hat. }
    destruct (String.eqb_spec (Py.strip s) "nan") as [E|_].
    { rewrite E in Hat. simpl in Hat. intuition discriminate. }
    exact Hm.
Qed.

(** Null and blank input is rejected. *)
Lemma validar_email_individual_blank (email : Py.object) :
  match email with Py.PyStr s => Spec.blank s | _ => True end ->
  validar_email_individual email = false.
Proof.
  destruct email as [s| |]; [|reflexivity..].
  intros Hb. unfold validar_email_individual. cbn [Py.isna Py.str orb].
  now rewrite (blank_strip s Hb).
Qed.

(** A string that starts with whitespace is rejected. *)
Lemma validar_email_individual_leading_space (s : string) (c : ascii) :
  head (Spec.chars s) = Some c -> Py.isspace c = true ->
  validar_email_individual (Py.PyStr s) = false.
Proof.
  intros Hh Hc. apply not_true_iff_false. intros Hv.
  apply validar_email_individual_accepts in Hv.
  assert (Hl : exists c', head (Spec.chars s) = Some c' /\ Spec.local_char c' = true).
  { destruct Hv as [Hv|(s0 & -> & Hv)]; apply email_valid_head in Hv as (c' & H1 & H2).
    - eauto.
    - exists c'. split; [|exact H2]. rewrite chars_append. apply head_app_Some. now left. }
  destruct Hl as (c' & H1 & H2). rewrite Hh in H1. injection H1 as <-.
  apply local_char_not_space in H2. congruence.
Qed.

(** A string that ends with whitespace other than a newline is rejected. *)
Lemma validar_email_individual_trailing_space (s : string) (c : ascii) :
  last (Spec.chars s) = Some c -> Py.isspace c = true -> c <> "010"%char ->
  validar_email_individual (Py.PyStr s) = false.
Proof.
  intros Hl Hc Hnl. apply not_true_iff_false. intros Hv.
  apply validar_email_individual_accepts in Hv.
  destruct Hv as [Hv|(s0 & -> & Hv)].
  - apply email_valid_last in Hv as (c' & H1 & H2). rewrite Hl in H1. injection H1 as <-.
    apply is_alpha_not_space in H2. congruence.
  - rewrite chars_append in Hl. change (Spec.chars nl) with ["010"%char] in Hl.
    rewrite last_snoc in Hl. congruence.
Qed.

(** C5. The validator is meant to accept a string only when the entire string
    is an address, anchored at both ends.  It accepts "a@b.com" followed by a
    newline, which is not one: [$] also succeeds just before a final newline. *)
Theorem validar_email_individual_final_newline :
  validar_email_individual (Py.PyStr ("a@b.com" ++ nl)) = true
  /\ ~ Spec.email_valid ("a@b.com" ++ nl).
Proof.
  split; [reflexivity|].
  intros H. apply email_valid_last in H as (c & H1 & H2).
  vm_compute in H1. injection H1 as <-. discriminate H2.
Qed.

(** The cases the specification names. *)
Example validar_email_individual_cases :
  validar_email_individual (Py.PyStr "a@b.com") = true
  /\ validar_email_individual (Py.PyStr "a@b") = false
  /\ validar_email_individual (Py.PyStr EmptyString) = false.
Proof. repeat split. Qed.

(** C10. A string with whitespace at one end that is not blank is meant to be
    rejected, since the validator does not trim.  "a@b.com" followed by a
    newline ends with whitespace, is not blank, and is accepted. *)
Theorem validar_email_individual_padded_accepted :
  Spec.padded ("a@b.com" ++ nl)
  /\ ~ Spec.blank ("a@b.com" ++ nl)
  /\ validar_email_individual (Py.PyStr ("a@b.com" ++ nl)) = true.
Proof.
  split; [|split; [|reflexivity]].
  - right. exists "010"%char. split; reflexivity.
  - intros H. inversion H as [|? ? Ha _]. discriminate Ha.
Qed.

(** ** The validation of one column *)

Section Column.

Context {A : Type} `{Dtype A}.
Variable name : string.

Lemma run_check_index (present : list (nat * A)) (chk : Check A) (f : Failure) (i : nat) :
  In f (run_check name present chk) -> index f = Some i -> In i (present.*1).
Proof.
  unfold run_check. destruct (check_fn chk (present.*2)) as [results|e].
  - intros Hf Hi. apply list_elem_of_In, list_elem_of_omap in Hf as ([[j x] b] & Hin & Hs).
    destruct b; [discriminate|]. injection Hs as <-. injection Hi as ->.
    apply elem_of_zip_l, (list_elem_of_fmap_2 fst) in Hin.
    apply list_elem_of_In. exact Hin.
  - intros [<-|[]]. discriminate.
Qed.

Lemma run_check_elementwise (present : list (nat * A)) (chk : Check A) (p : A -> bool) :
  elementwise chk p ->
  run_check name present chk
  = omap (fun '(i, x) =>
            if p x then None
            else Some (mkFailure (Some i) (Some name) (error chk) (Some (to_valor x))))
         present.
Proof.
  intros He. unfold run_check. rewrite He.
  induction present as [|[i x] present IH]; [reflexivity|].
  cbn [fmap list_fmap map zip zip_with omap list_omap snd] in *.
  destruct (p x); now rewrite IH.
Qed.

Lemma in_present_cells (serie : list (nat * option A)) (i : nat) (x : A) :
  In (i, x) (present_cells serie) <-> In (i, Some x) serie.
Proof.
  unfold present_cells. rewrite <- !list_elem_of_In, list_elem_of_omap. split.
  - intros ([j [y|]] & Hin & Hs); [|discriminate]. now injection Hs as -> ->.
  - intros Hin. exists (i, Some x). auto.
Qed.

Lemma validate_column_index (col : Column A) (serie : list (nat * option A))
    (f : Failure) (i : nat) :
  In f (validate_column name col serie) -> index f = Some i -> In i (serie.*1).
Proof.
  unfold validate_column. intros Hf Hi. apply List.in_app_or in Hf as [Hf|Hf].
  - destruct (nullable col); [destruct Hf|].
    apply list_elem_of_In, list_elem_of_omap in Hf as ([j [y|]] & Hin & Hs); [discriminate|].
    injection Hs as <-. injection Hi as ->.
    apply (list_elem_of_fmap_2 fst) in Hin. apply list_elem_of_In. exact Hin.
  - apply List.in_concat in Hf as (fs & Hfs & Hf).
    apply List.in_map_iff in Hfs as (chk & <- & _).
    apply (run_check_index _ _ _ i) in Hf; [|exact Hi].
    apply list_elem_of_In, list_elem_of_fmap in Hf as ([j x] & -> & Hin).
    apply list_elem_of_In, in_present_cells, list_elem_of_In in Hin.
    apply (list_elem_of_fmap_2 fst) in Hin. apply list_elem_of_In. exact Hin.
Qed.

Lemma validate_column_column (col : Column A) (serie : list (nat * option A)) (f : Failure) :
  In f (validate_column name col serie) -> column f = Some name.
Proof.
  unfold validate_column. intros Hf. apply List.in_app_or in Hf as [Hf|Hf].
  - destruct (nullable col); [destruct Hf|].
    apply list_elem_of_In, list_elem_of_omap in Hf as ([j [y|]] & Hin & Hs); [discriminate|].
    now injection Hs as <-.
  - apply List.in_concat in Hf as (fs & Hfs & Hf).
    apply List.in_map_iff in Hfs as (chk & <- & _).
    unfold run_check in Hf. destruct (check_fn chk _).
    + apply list_elem_of_In, list_elem_of_omap in Hf as ([[j x] b] & Hin & Hs).
      destruct b; [discriminate|]. now injection Hs as <-.
    + destruct Hf as [<-|[]]. reflexivity.
Qed.

(** With elementwise checks, a row index has a failure exactly when one of
    its cells fails. *)
Lemma validate_column_fails (col : Column A) (serie : list (nat * option A)) (i : nat) :
  Forall (fun chk => exists p, elementwise chk p) (checks col) ->
  (exists f, In f (validate_column name col serie) /\ index f = Some i)
  <-> exists c, In (i, c) serie /\ cell_fails col c.
Proof.
  intros Hel. unfold validate_column. split.
  - intros (f & Hf & Hi). apply List.in_app_or in Hf as [Hf|Hf].
    + destruct (nullable col) eqn:Hn; [destruct Hf|].
      apply list_elem_of_In, list_elem_of_omap in Hf as ([j [y|]] & Hin & Hs); [discriminate|].
      injection Hs as <-. injection Hi as ->.
      exists None. split; [now apply list_elem_of_In | exact Hn].
    + apply List.in_concat in Hf as (fs & Hfs & Hf).
      apply List.in_map_iff in Hfs as (chk & <- & Hchk).
      rewrite List.Forall_forall in Hel. destruct (Hel chk Hchk) as (p & Hp).
      rewrite (run_check_elementwise _ _ p Hp) in Hf.
      apply list_elem_of_In, list_elem_of_omap in Hf as ([j x] & Hin & Hs).
      destruct (p x) eqn:Hpx; [discriminate|]. injection Hs as <-. injection Hi as ->.
      exists (Some x). split.
      * now apply in_present_cells, list_elem_of_In.
      * exists chk, p. auto.
  - intros ([x|] & Hin & Hc).
    + destruct Hc as (chk & p & Hchk & Hp & Hpx).
      exists (mkFailure (Some i) (Some name) (error chk) (Some (to_valor x))).
      split; [|reflexivity]. apply List.in_or_app. right.
      apply List.in_concat. exists (run_check name (present_cells serie) chk).
      split; [now apply List.in_map|].
      rewrite (run_check_elementwise _ _ p Hp).
      apply list_elem_of_In, list_elem_of_omap. exists (i, x).
      split; [now apply list_elem_of_In, in_present_cells|]. now rewrite Hpx.
    + simpl in Hc. rewrite Hc.
      exists (mkFailure (Some i) (Some name) "not_nullable" None). split; [|reflexivity].
      apply List.in_or_app. left. apply list_elem_of_In, list_elem_of_omap.
      exists (i, None). split; [now apply list_elem_of_In | reflexivity].
Qed.


End Column.

(** ** The checks of the schema are elementwise *)

Lemma validar_cpf_elementwise :
  elementwise (mkCheck (fun serie => validar_cpf (map Uni.of_string serie)) "CPF inválido")
    cpf_passes.
Proof.
  intros l. cbn [check_fn]. unfold validar_cpf.
  induction l as [|s l IH]; [reflexivity|].
  cbn [mapM map]. rewrite IH. unfold cpf_passes at 2.
  destruct (validar_cpf_individual_total (Uni.PyStr (Uni.of_string s))) as (b & ->).
  reflexivity.
Qed.

Lemma elementwise_nome :
  Forall (fun chk => exists p, elementwise chk p) (checks (col_nome schema)).
Proof. repeat constructor. eexists. intros l. reflexivity. Qed.

Lemma elementwise_cpf :
  Forall (fun chk => exists p, elementwise chk p) (checks (col_cpf schema)).
Proof. repeat constructor. exists cpf_passes. apply validar_cpf_elementwise. Qed.

Lemma elementwise_email :
  Forall (fun chk => exists p, elementwise chk p) (checks (col_email schema)).
Proof. repeat constructor. eexists. intros l. reflexivity. Qed.

Lemma elementwise_valor_contrato :
  Forall (fun chk => exists p, elementwise chk p) (checks (col_valor_contrato schema)).
Proof. repeat constructor. eexists. intros l. reflexivity. Qed.

Lemma elementwise_idade :
  Forall (fun chk => exists p, elementwise chk p) (checks (col_idade schema)).
Proof. repeat constructor; eexists; intros l; reflexivity. Qed.

(** ** The validation of a frame *)

Section Declared.

Context {A : Type} `{Dtype A}.
Variables (df : DataFrame) (name : string) (col : Column A) (field : Registro -> option A).

Lemma in_field_series (i : nat) (c : option A) :
  In (i, c) (map (fun '(i, r) => (i, field r)) (rows df))
  <-> exists r, In (i, r) (rows df) /\ c = field r.
Proof.
  rewrite List.in_map_iff. split.
  - intros ([j r] & E & Hin). injection E as -> <-. eauto.
  - intros (r & Hin & ->). exists (i, r). auto.
Qed.

Lemma validate_declared_index (f : Failure) (i : nat) :
  In f (validate_declared df name col field) -> index f = Some i ->
  In i ((rows df).*1) /\ column f = Some name /\ name ∈ columns df.
Proof.
  unfold validate_declared. case_bool_decide as Hc.
  - intros Hf Hi. split; [|split; [|exact Hc]].
    + apply (validate_column_index name col _ f i Hf) in Hi.
      apply list_elem_of_In, list_elem_of_fmap in Hi as ([j c] & -> & Hin).
      apply list_elem_of_In, in_field_series in Hin as (r & Hin & _).
      apply list_elem_of_In. apply list_elem_of_In, (list_elem_of_fmap_2 fst) in Hin. exact Hin.
    + exact (validate_column_column name col _ f Hf).
  - intros [].
Qed.


End Declared.

(** The failures of the absent columns carry no row index. *)
Lemma column_in_dataframe_index (df : DataFrame) (f : Failure) :
  In f (concat (map (column_in_dataframe df) schema_columns)) -> index f = None.
Proof.
  intros Hf. apply List.in_concat in Hf as (fs & Hfs & Hf).
  apply List.in_map_iff in Hfs as (name & <- & _).
  unfold column_in_dataframe in Hf. case_bool_decide; [destruct Hf|].
  destruct Hf as [<-|[]]. reflexivity.
Qed.

(** A failure with a row index comes from a column that is present. *)
Lemma failure_cases_declared (df : DataFrame) (f : Failure) (i : nat) :
  index f = Some i ->
  In f (failure_cases_of schema df)
  <-> In f (validate_declared df "nome" (col_nome schema) nome)
      \/ In f (validate_declared df "cpf" (col_cpf schema) cpf)
      \/ In f (validate_declared df "email" (col_email schema) email)
      \/ In f (validate_declared df "valor_contrato" (col_valor_contrato schema) valor_contrato)
      \/ In f (validate_declared df "idade" (col_idade schema) idade).
Proof.
  intros Hi. unfold failure_cases_of. rewrite !List.in_app_iff. split; [|tauto].
  intros [Hf|Hf]; [|exact Hf].
  apply column_in_dataframe_index in Hf. congruence.
Qed.

Lemma failure_cases_index (df : DataFrame) (f : Failure) (i : nat) :
  In f (failure_cases_of schema df) -> index f = Some i ->
  In i ((rows df).*1) /\ exists name, column f = Some name /\ name ∈ columns df.
Proof.
  intros Hf Hi. apply (failure_cases_declared df f i Hi) in Hf.
  destruct Hf as [Hf|[Hf|[Hf|[Hf|Hf]]]];
    destruct (validate_declared_index _ _ _ _ f i Hf Hi) as (H1 & H2 & H3); eauto.
Qed.


(** ** [validar_dados] *)

Lemma filter_all (A : Type) (p : A -> bool) (l : list A) :
  (forall x, In x l -> p x = true) -> List.filter p l = l.
Proof.
  induction l as [|x l IH]; intros H; [reflexivity|]. simpl.
  rewrite (H x (or_introl eq_refl)). f_equal. apply IH. intros y Hy. apply H. now right.
Qed.


(** Both branches of the [try] compute the same two results. *)
Lemma validar_dados_read (w : World) (path : string) (df : DataFrame) :
  read_excel w path = Ok df ->
  validar_dados w path = Ok (validos_of df, erros_of df).
Proof.
  intros R. unfold validar_dados. rewrite R. cbn [mbind exc_bind].
  unfold validate, validos_of, erros_of.
  destruct (failure_cases_of schema df) as [|f fs] eqn:E; [|reflexivity].
  cbn [List.filter omap list_omap]. do 2 f_equal.
  destruct df as [cols rs]. cbn [columns rows]. f_equal.
  symmetry. apply filter_all. intros [i r] _.
  rewrite bool_decide_eq_false_2; [reflexivity | set_solver].
Qed.

Lemma read_excel_with_excel (w : World) (path : string) (p : Planilha) :
  read_excel (with_excel w path p) path = Ok (frame_of p).
Proof.
  unfold read_excel, with_excel. cbn [excel_files]. now rewrite lookup_insert_eq.
Qed.

Lemma validar_dados_unfold (w : World) (path : string) (p : Planilha) :
  validar_dados (with_excel w path p) path
  = Ok (validos_of (frame_of p), erros_of (frame_of p)).
Proof. apply validar_dados_read, read_excel_with_excel. Qed.

Lemma validar_dados_no_file (w : World) (path : string) :
  excel_files w !! path = None -> validar_dados w path = Raise FileNotFoundError.
Proof. intros E. unfold validar_dados, read_excel. now rewrite E. Qed.

Lemma imap_index (A B : Type) (g : A -> B) (l : list A) (k : nat) :
  (imap (fun i r => (k + i, g r)) l).*1 = seq k (length l).
Proof.
  revert k. induction l as [|x l IH]; intros k; [reflexivity|].
  cbn [imap fmap list_fmap length seq fst]. rewrite Nat.add_0_r. f_equal.
  rewrite <- (IH (S k)). f_equal. apply imap_ext. intros i y _. simpl. f_equal. lia.
Qed.

Lemma frame_of_index (p : Planilha) :
  (rows (frame_of p)).*1 = seq 0 (length (registros p)).
Proof. exact (imap_index _ _ (under (header p)) (registros p) 0). Qed.

Lemma erros_of_index (df : DataFrame) (f : Failure) :
  In f (erros_of df) ->
  In f (failure_cases_of schema df) /\ exists i, index f = Some i.
Proof.
  unfold erros_of. rewrite List.filter_In, bool_decide_eq_true.
  intros [Hf [i Hi]]. eauto.
Qed.

Lemma in_failure_spec (erros : list Failure) (i : nat) :
  Spec.in_failure erros i = true <-> exists f, In f erros /\ index f = Some i.
Proof.
  unfold Spec.in_failure. rewrite List.existsb_exists.
  split; intros (f & Hf & Hi); exists f; split; auto.
  - now apply bool_decide_eq_true in Hi.
  - now apply bool_decide_eq_true.
Qed.

Lemma in_failure_set (erros : list Failure) (i : nat) :
  bool_decide (i ∈ (list_to_set (omap index erros) : gset nat)) = Spec.in_failure erros i.
Proof.
  apply eq_true_iff_eq. rewrite bool_decide_eq_true, in_failure_spec.
  rewrite elem_of_list_to_set, list_elem_of_omap.
  split; intros (f & Hf & Hi); exists f; split; auto; now apply list_elem_of_In.
Qed.

Lemma NoDup_filter_fst (A B : Type) (q : A * B -> bool) (l : list (A * B)) :
  NoDup (l.*1) -> NoDup ((List.filter q l).*1).
Proof.
  induction l as [|[a b] l IH]; [intros _; constructor|].
  cbn [fmap list_fmap fst]. rewrite NoDup_cons. intros [Ha Hl].
  cbn [List.filter]. destruct (q (a, b)); [|auto].
  cbn [fmap list_fmap fst]. apply NoDup_cons. split; [|auto].
  intros Hin. apply Ha.
  apply list_elem_of_fmap in Hin as ([a' b'] & -> & Hin).
  apply list_elem_of_In, List.filter_In in Hin as [Hin _].
  apply list_elem_of_In, (list_elem_of_fmap_2 fst) in Hin. exact Hin.
Qed.

(** The rows set aside are as many as the distinct row indices that fail. *)
Lemma count_failed_rows (df : DataFrame) :
  NoDup ((rows df).*1) ->
  length (List.filter (fun ir : nat * Registro => Spec.in_failure (erros_of df) ir.1) (rows df))
  = Spec.distinct_rows (erros_of df).
Proof.
  intros Hnd. unfold Spec.distinct_rows.
  rewrite <- (length_fmap fst (List.filter _ _)).
  apply Permutation_length, NoDup_Permutation.
  - now apply NoDup_filter_fst.
  - apply NoDup_remove_dups.
  - intros i. rewrite elem_of_remove_dups, list_elem_of_omap, list_elem_of_fmap. split.
    + intros ([j r] & -> & Hin).
      apply list_elem_of_In, List.filter_In in Hin as [_ Hf].
      apply in_failure_spec in Hf as (f & Hf & Hi). exists f. split; [|exact Hi].
      now apply list_elem_of_In.
    + intros (f & Hf & Hi). apply list_elem_of_In in Hf.
      destruct (erros_of_index df f Hf) as (Hfc & _).
      destruct (failure_cases_index df f i Hfc Hi) as (Hrow & _).
      apply list_elem_of_In, list_elem_of_fmap in Hrow as ([j r] & -> & Hin).
      exists (j, r). split; [reflexivity|].
      apply list_elem_of_In, List.filter_In. split; [now apply list_elem_of_In|].
      apply in_failure_spec. eauto.
Qed.

(** C2. The two results of [validar_dados] partition the input: the valid
    records are exactly the input records whose row index appears in no
    returned failure, in their input order, and their number plus the number
    of distinct row indices in the failures is the number of input records. *)
Theorem validar_dados_partition (w : World) (path : string) (p : Planilha) :
  exists validos erros,
    validar_dados (with_excel w path p) path = Ok (validos, erros)
    /\ rows validos
       = List.filter (fun ir => negb (Spec.in_failure erros ir.1))
           (imap (fun i r => (i, under (header p) r)) (registros p))
    /\ length (rows validos) + Spec.distinct_rows erros = length (registros p).
Proof.
  exists (validos_of (frame_of p)), (erros_of (frame_of p)).
  split; [apply validar_dados_unfold|].
  assert (E : rows (validos_of (frame_of p))
              = List.filter (fun ir => negb (Spec.in_failure (erros_of (frame_of p)) ir.1))
                  (rows (frame_of p))).
  { unfold validos_of. cbn [rows]. apply List.filter_ext. intros [i r].
    now rewrite in_failure_set. }
  split; [exact E|].
  rewrite E, <- count_failed_rows, Nat.add_comm.
  - rewrite List.filter_length. unfold frame_of. cbn [rows]. apply length_imap.
  - rewrite frame_of_index. apply NoDup_seq.
Qed.

(** ** Rows and fields *)



Lemma row_fails_campo (cols : list string) (r : Registro) :
  row_fails cols r <-> exists c, Spec.campo_name c ∈ cols /\ campo_fails c r.
Proof.
  unfold row_fails. split.
  - intros [H|[H|[H|[H|H]]]].
    + now exists Spec.Nome.
    + now exists Spec.Cpf.
    + now exists Spec.Email.
    + now exists Spec.ValorContrato.
    + now exists Spec.Idade.
  - intros ([] & H); cbn [Spec.campo_name campo_fails] in H; tauto.
Qed.

Lemma read_text_idem (c : option string) : read_text (read_text c) = read_text c.
Proof.
  destruct c as [s|]; [|reflexivity]. cbn [read_text].
  case_bool_decide as H; [reflexivity|]. cbn [read_text]. now rewrite bool_decide_eq_false_2.
Qed.



Lemma under_idem (cols : list string) (r : Registro) :
  under cols (under cols r) = under cols r.
Proof.
  unfold under. cbn [nome cpf email valor_contrato idade].
  f_equal; case_bool_decide; rewrite ?read_text_idem; reflexivity.
Qed.



(** ** Claims about [validar_dados] *)

(** Against C3 as stated: a sheet with no [cpf] column at all, for which
    [validar_dados] returns a pair. *)
Lemma validar_dados_missing_column_returns :
  let p := mkPlanilha ["nome"; "email"; "valor_contrato"; "idade"]
             [mkRegistro (Some "Ana") None (Some "ana@example.com") (Some 100%Q) (Some 30%Z)] in
  ~ In "cpf" (header p)
  /\ validar_dados (with_excel empty_world "dados_clientes.xlsx" p) "dados_clientes.xlsx"
     = Ok (mkDataFrame ["nome"; "email"; "valor_contrato"; "idade"]
             [(0, mkRegistro (Some "Ana") None (Some "ana@example.com") (Some 100%Q)
                    (Some 30%Z))],
           []).
Proof.
  split.
  - simpl. intuition discriminate.
  - rewrite validar_dados_unfold. vm_compute. reflexivity.
Qed.

(** An absent column is a failure of the frame. *)
Lemma validate_absent_column (df : DataFrame) (c : Spec.campo) :
  ~ In (Spec.campo_name c) (columns df) ->
  exists failure_cases, validate schema df = Raise (SchemaErrors failure_cases).
Proof.
  intros Hc. unfold validate.
  assert (Hin : In (mkFailure None None "column_in_dataframe"
                      (Some (VStr (Spec.campo_name c))))
                  (failure_cases_of schema df)).
  { unfold failure_cases_of. apply List.in_or_app. left.
    apply List.in_concat. exists (column_in_dataframe df (Spec.campo_name c)). split.
    - apply List.in_map. destruct c; cbn; tauto.
    - unfold column_in_dataframe. rewrite bool_decide_eq_false_2; [now left|].
      intros H. now apply Hc, list_elem_of_In. }
  destruct (failure_cases_of schema df) as [|f fs]; [destruct Hin|]. eauto.
Qed.

(** C3, as the code has it. When a declared column is absent from the sheet,
    [schema.validate] raises [SchemaErrors]; [validar_dados] catches it and
    returns a pair, so that the run is not aborted. *)
Theorem validar_dados_returns (w : World) (path : string) (p : Planilha) (c : Spec.campo) :
  ~ In (Spec.campo_name c) (header p) ->
  exists df failure_cases validos erros,
    read_excel (with_excel w path p) path = Ok df
    /\ validate schema df = Raise (SchemaErrors failure_cases)
    /\ validar_dados (with_excel w path p) path = Ok (validos, erros).
Proof.
  intros Hc.
  destruct (validate_absent_column (frame_of p) c Hc) as (failure_cases & Hv).
  exists (frame_of p), failure_cases, (validos_of (frame_of p)), (erros_of (frame_of p)).
  split; [apply read_excel_with_excel|]. split; [exact Hv|].
  apply validar_dados_unfold.
Qed.

(** The theorem at a sheet with no [cpf] column. *)
Lemma validar_dados_returns_witness :
  let p := mkPlanilha ["nome"; "email"; "valor_contrato"; "idade"]
             [mkRegistro (Some "Ana") None (Some "ana@example.com") (Some 100%Q) (Some 30%Z)] in
  exists df failure_cases validos erros,
    read_excel (with_excel empty_world "dados_clientes.xlsx" p) "dados_clientes.xlsx" = Ok df
    /\ validate schema df = Raise (SchemaErrors failure_cases)
    /\ validar_dados (with_excel empty_world "dados_clientes.xlsx" p) "dados_clientes.xlsx"
       = Ok (validos, erros).
Proof.
  intros p. apply (validar_dados_returns empty_world "dados_clientes.xlsx" p Spec.Cpf).
  simpl. intuition discriminate.
Defined.

(** C6. The numeric checks of the schema: a contract value passes exactly
    when it is at least 0, an age exactly when it is between 1 and 150. *)
Theorem schema_numeric_checks :
  (forall (i : nat) (q : Q),
      validate_column "valor_contrato" (col_valor_contrato schema) [(i, Some q)] = []
      <-> (0 <= q)%Q)
  /\ (forall (i : nat) (z : Z),
         validate_column "idade" (col_idade schema) [(i, Some z)] = []
         <-> (1 <= z <= 150)%Z)
  /\ validate_column "idade" (col_idade schema) [(0, Some 0%Z)] <> []
  /\ validate_column "idade" (col_idade schema) [(0, Some 151%Z)] <> []
  /\ validate_column "idade" (col_idade schema) [(0, Some 150%Z)] = []
  /\ validate_column "valor_contrato" (col_valor_contrato schema) [(0, Some (-1 # 100)%Q)] <> []
  /\ validate_column "valor_contrato" (col_valor_contrato schema) [(0, Some 0%Q)] = [].
Proof.
  repeat split; try discriminate.
  - unfold validate_column, run_check. cbn.
    unfold num_leb, numeric_float. destruct (Qle_bool 0 q) eqn:E; [|discriminate].
    intros _. now apply Qle_bool_iff.
  - unfold validate_column, run_check. cbn.
    unfold num_leb, numeric_float. intros Hq. apply Qle_bool_iff in Hq. now rewrite Hq.
  - revert H. unfold validate_column, run_check. cbn. unfold num_leb, numeric_int.
    destruct (Z.leb_spec 1 z); [lia | discriminate].
  - revert H. unfold validate_column, run_check. cbn. unfold num_leb, numeric_int.
    destruct (Z.leb_spec 1 z); [|discriminate].
    destruct (Z.leb_spec z 150); [lia | discriminate].
  - intros [H1 H2]. unfold validate_column, run_check. cbn. unfold num_leb, numeric_int.
    destruct (Z.leb_spec 1 z); [|lia]. destruct (Z.leb_spec z 150); [reflexivity | lia].
Qed.






(** The file [to_excel] leaves does not always hold the valid records as they
    are.  A name that begins with an equals sign is valid; it is stored as a
    formula, which is read back as a missing cell, so that a run on the file
    written reports the record. *)
Lemma validar_dados_formula_cell :
  let r := mkRegistro (Some "=x") (Some "111.444.777-35") (Some "ana@example.com")
             (Some 100%Q) (Some 30%Z) in
  let p := mkPlanilha ["nome"; "cpf"; "email"; "valor_contrato"; "idade"] [r] in
  let w := with_excel empty_world "dados_clientes.xlsx" p in
  exists validos w' validos2,
    validar_dados w "dados_clientes.xlsx" = Ok (validos, [])
    /\ rows validos = [(0, r)]
    /\ to_excel validos "dados_clientes_validos.xlsx" w = Ok w'
    /\ validar_dados w' "dados_clientes_validos.xlsx"
       = Ok (validos2, [mkFailure (Some 0) (Some "nome") "not_nullable" None]).
Proof.
  intros r p w. eexists _, _, _. split; [|split; [|split]].
  - vm_compute. reflexivity.
  - reflexivity.
  - vm_compute. reflexivity.
  - vm_compute. reflexivity.
Qed.

(** ** Grouping *)

Section Groupby.

Local Open Scope list_scope.

Context {K : Type} (cmp : K -> K -> comparison) (key : Failure -> option K).
Hypothesis cmp_eq : forall a b, cmp a b = Eq <-> a = b.
Hypothesis cmp_antisym : forall a b, cmp b a = CompOpp (cmp a b).
Hypothesis cmp_trans : forall a b c, cmp a b = Lt -> cmp b c = Lt -> cmp a c = Lt.


Lemma cmp_lt_ne (a b : K) : cmp a b = Lt -> a <> b.
Proof. intros H E. apply cmp_eq in E. congruence. Qed.

Lemma cmp_gt_lt (a b : K) : cmp a b = Gt -> cmp b a = Lt.
Proof. intros H. now rewrite cmp_antisym, H. Qed.

Lemma keys_add (k : K) (x : Failure) (gs : list (K * list Failure)) (kk : K) :
  kk ∈ (add_to_group cmp k x gs).*1 <-> kk = k \/ kk ∈ gs.*1.
Proof.
  induction gs as [|[k' g] gs IH]; cbn [add_to_group].
  - cbn. rewrite list_elem_of_singleton. split; [now left | intros [E|E]; [exact E | inversion E]].
  - destruct (cmp k k') eqn:E; cbn [fmap list_fmap fst]; rewrite !elem_of_cons.
    + apply cmp_eq in E as ->. tauto.
    + tauto.
    + rewrite IH. tauto.
Qed.

Lemma sorted_add (k : K) (x : Failure) (gs : list (K * list Failure)) :
  StronglySorted (key_lt cmp) gs -> StronglySorted (key_lt cmp) (add_to_group cmp k x gs).
Proof.
  induction gs as [|[k' g] gs IH]; cbn [add_to_group]; intros Hs.
  - repeat constructor.
  - apply StronglySorted_cons in Hs as [Hall Hs].
    destruct (cmp k k') eqn:E.
    + apply StronglySorted_cons. split; [exact Hall | exact Hs].
    + apply StronglySorted_cons. split; [|apply StronglySorted_cons; auto].
      constructor; [exact E|].
      eapply List.Forall_impl; [|exact Hall]. intros y Hy. unfold key_lt in *. cbn in *.
      eapply cmp_trans; eassumption.
    + apply StronglySorted_cons. split; [|auto].
      apply Forall_forall. intros [k2 g2] Hin. unfold key_lt. cbn.
      assert (Hk : k2 ∈ (add_to_group cmp k x gs).*1)
        by (apply (list_elem_of_fmap_2 fst) in Hin; exact Hin).
      apply keys_add in Hk as [->|Hk]; [now apply cmp_gt_lt|].
      apply list_elem_of_fmap in Hk as ([k3 g3] & -> & Hin3).
      rewrite Forall_forall in Hall. exact (Hall _ Hin3).
Qed.

Lemma group_of_snoc (k : K) (pre : list Failure) (x : Failure) :
  group_of cmp key k (pre ++ [x])
  = group_of cmp key k pre ++ (if in_group cmp key k x then [x] else []).
Proof. unfold group_of. rewrite List.filter_app. reflexivity. Qed.

Lemma in_group_key (k k0 : K) (x : Failure) :
  key x = Some k0 -> in_group cmp key k x = true <-> k0 = k.
Proof.
  intros Hk. unfold in_group. rewrite Hk. rewrite <- cmp_eq.
  destruct (cmp k0 k); split; congruence.
Qed.

Lemma group_of_snoc_eq (k : K) (pre : list Failure) (x : Failure) :
  key x = Some k -> group_of cmp key k (pre ++ [x]) = group_of cmp key k pre ++ [x].
Proof.
  intros Hk. rewrite group_of_snoc.
  now rewrite (proj2 (in_group_key k k x Hk) eq_refl).
Qed.

Lemma group_of_snoc_ne (k k0 : K) (pre : list Failure) (x : Failure) :
  key x = Some k0 -> k0 <> k -> group_of cmp key k (pre ++ [x]) = group_of cmp key k pre.
Proof.
  intros Hk Hne. rewrite group_of_snoc.
  destruct (in_group cmp key k x) eqn:E.
  - apply (in_group_key k k0 x Hk) in E. contradiction.
  - apply app_nil_r.
Qed.

Lemma group_of_snoc_none (k : K) (pre : list Failure) (x : Failure) :
  key x = None -> group_of cmp key k (pre ++ [x]) = group_of cmp key k pre.
Proof.
  intros Hk. rewrite group_of_snoc. unfold in_group. rewrite Hk. apply app_nil_r.
Qed.

Lemma groups_add (k0 : K) (x : Failure) (pre : list Failure) (gs : list (K * list Failure)) :
  key x = Some k0 ->
  StronglySorted (key_lt cmp) gs ->
  (forall k g, (k, g) ∈ gs -> g = group_of cmp key k pre /\ g <> []) ->
  (group_of cmp key k0 pre <> [] -> k0 ∈ gs.*1) ->
  forall k g, (k, g) ∈ add_to_group cmp k0 x gs ->
              g = group_of cmp key k (pre ++ [x]) /\ g <> [].
Proof.
  intros Hk. induction gs as [|[k' g'] gs IH]; cbn [add_to_group]; intros Hs Hg Hc k g Hin.
  - apply list_elem_of_singleton in Hin. injection Hin as -> ->.
    rewrite (group_of_snoc_eq k0 pre x Hk).
    destruct (group_of cmp key k0 pre) as [|y l] eqn:E; [split; [reflexivity|discriminate]|].
    exfalso. assert (H0 : k0 ∈ ([] : list (K * list Failure)).*1) by (apply Hc; discriminate).
    inversion H0.
  - apply StronglySorted_cons in Hs as [Hall Hs]. rewrite Forall_forall in Hall.
    destruct (cmp k0 k') eqn:E.
    + apply cmp_eq in E as <-. apply elem_of_cons in Hin as [Hin|Hin].
      * injection Hin as -> ->.
        destruct (Hg k0 g') as [-> _]; [left|].
        rewrite (group_of_snoc_eq k0 pre x Hk). split; [reflexivity|].
        intros E. now apply app_eq_nil in E as [_ E].
      * destruct (Hg k g) as [-> Hne]; [now right|]. split; [|exact Hne].
        rewrite (group_of_snoc_ne k k0 pre x Hk); [reflexivity|].
        apply cmp_lt_ne. exact (Hall _ Hin).
    + apply elem_of_cons in Hin as [Hin|Hin].
      * injection Hin as -> ->. rewrite (group_of_snoc_eq k0 pre x Hk).
        destruct (group_of cmp key k0 pre) as [|y l] eqn:E'; [split; [reflexivity|discriminate]|].
        exfalso. assert (H0 : k0 ∈ ((k', g') :: gs).*1) by (apply Hc; discriminate).
        cbn in H0. apply elem_of_cons in H0 as [->|H0].
        -- apply cmp_lt_ne in E. contradiction.
        -- apply list_elem_of_fmap in H0 as ([k3 g3] & -> & Hin3).
           pose proof (Hall _ Hin3) as H3. unfold key_lt in H3. cbn in H3.
           pose proof (cmp_trans _ _ _ E H3) as H4. now apply cmp_lt_ne in H4.
      * destruct (Hg k g Hin) as [-> Hne]. split; [|exact Hne].
        rewrite (group_of_snoc_ne k k0 pre x Hk); [reflexivity|].
        apply elem_of_cons in Hin as [Hin|Hin].
        -- injection Hin as -> _. now apply cmp_lt_ne.
        -- pose proof (Hall _ Hin) as H3. unfold key_lt in H3. cbn in H3.
           apply cmp_lt_ne. eapply cmp_trans; eassumption.
    + apply elem_of_cons in Hin as [Hin|Hin].
      * injection Hin as -> ->. destruct (Hg k' g') as [-> Hne]; [left|].
        split; [|exact Hne].
        rewrite (group_of_snoc_ne k' k0 pre x Hk); [reflexivity|].
        intros ->. apply cmp_gt_lt, cmp_lt_ne in E. contradiction.
      * apply (IH Hs); [| |exact Hin].
        -- intros k2 g2 H2. apply Hg. now right.
        -- intros Hne. apply Hc in Hne. cbn in Hne.
           apply elem_of_cons in Hne as [->|Hne]; [|exact Hne].
           apply cmp_gt_lt, cmp_lt_ne in E. contradiction.
Qed.

Lemma grouped_step (pre : list Failure) (gs : list (K * list Failure)) (x : Failure) :
  grouped cmp key pre gs ->
  grouped cmp key (pre ++ [x])
    (match key x with Some k => add_to_group cmp k x gs | None => gs end).
Proof.
  intros (Hs & Hg & Hc). destruct (key x) as [k0|] eqn:Hk.
  - split; [now apply sorted_add|]. split.
    + apply (groups_add k0 x pre gs Hk Hs Hg). apply Hc.
    + intros k Hne. apply keys_add.
      destruct (in_group cmp key k x) eqn:E.
      * apply (in_group_key k k0 x Hk) in E. now left.
      * right. apply Hc. rewrite group_of_snoc, E, app_nil_r in Hne. exact Hne.
  - split; [exact Hs|]. split.
    + intros k g Hin. rewrite (group_of_snoc_none k pre x Hk). now apply Hg.
    + intros k. rewrite (group_of_snoc_none k pre x Hk). apply Hc.
Qed.

Lemma grouped_fold (l pre : list Failure) (gs : list (K * list Failure)) :
  grouped cmp key pre gs ->
  grouped cmp key (pre ++ l)
    (fold_left (fun gs x => match key x with
                            | Some k => add_to_group cmp k x gs
                            | None => gs
                            end) l gs).
Proof.
  revert pre gs. induction l as [|x l IH]; intros pre gs Hg.
  - now rewrite app_nil_r.
  - cbn [fold_left]. replace (pre ++ x :: l) with ((pre ++ [x]) ++ l)
      by now rewrite <- app_assoc.
    apply IH. now apply grouped_step.
Qed.

(** The groups of [groupby]: in ascending key order, one per key that occurs,
    each holding the rows of its key in their original order. *)
Lemma groupby_grouped (l : list Failure) : grouped cmp key l (groupby cmp key l).
Proof.
  apply (grouped_fold l [] []). split; [constructor|]. split.
  - intros k g Hin. inversion Hin.
  - intros k Hne. now contradiction Hne.
Qed.

End Groupby.

(** ** The order of strings *)

Lemma string_compare_refl (s : string) : String.compare s s = Eq.
Proof.
  induction s as [|a s IH]; [reflexivity|]. cbn [String.compare].
  unfold Ascii.compare. now rewrite N.compare_refl.
Qed.

Lemma string_compare_eq (a b : string) : String.compare a b = Eq <-> a = b.
Proof. split; [apply String.compare_eq_iff | intros ->; apply string_compare_refl]. Qed.

Lemma string_compare_antisym (a b : string) :
  String.compare b a = CompOpp (String.compare a b).
Proof. apply String.compare_antisym. Qed.

Lemma string_compare_le (a b : string) : String.compare a b = Lt -> String.le a b.
Proof. intros H. unfold String.le, String.leb. now rewrite H. Qed.

Lemma string_compare_trans (a b c : string) :
  String.compare a b = Lt -> String.compare b c = Lt -> String.compare a c = Lt.
Proof.
  intros Hab Hbc.
  pose proof (string_compare_le a b Hab) as Lab.
  pose proof (string_compare_le b c Hbc) as Lbc.
  assert (Lac : String.le a c) by (etransitivity; eassumption).
  destruct (String.compare a c) eqn:E; [| reflexivity |].
  - apply string_compare_eq in E. subst c.
    assert (a = b) by (apply (anti_symm String.le); assumption). subst b.
    rewrite string_compare_refl in Hab. discriminate.
  - unfold String.le, String.leb in Lac. rewrite E in Lac. destruct Lac.
Qed.

(** ** The stable sort *)

Section Sort.

Context {K : Type}.
Local Open Scope list_scope.

Lemma insert_by_count_perm (x : K * nat) (l : list (K * nat)) :
  insert_by_count x l ≡ₚ x :: l.
Proof.
  induction l as [|y l IH]; cbn [insert_by_count]; [reflexivity|].
  destruct (x.2 <=? y.2); [reflexivity|]. rewrite IH. apply perm_swap.
Qed.

Lemma argsort_perm (l : list (K * nat)) : argsort l ≡ₚ l.
Proof.
  induction l as [|x l IH]; cbn [argsort]; [reflexivity|].
  now rewrite insert_by_count_perm, IH.
Qed.

Lemma stable_order_le (S : relation (K * nat)) (x y : K * nat) :
  stable_order S x y -> x.2 <= y.2.
Proof. intros [H|[H _]]; lia. Qed.

Lemma insert_by_count_sorted (S : relation (K * nat)) (x : K * nat) (l : list (K * nat)) :
  StronglySorted (stable_order S) l -> Forall (S x) l ->
  StronglySorted (stable_order S) (insert_by_count x l).
Proof.
  induction l as [|y l IH]; cbn [insert_by_count]; intros Hs Hx.
  - repeat constructor.
  - apply StronglySorted_cons in Hs as [Hy Hs]. apply Forall_cons in Hx as [Hxy Hx].
    destruct (Nat.leb_spec x.2 y.2) as [Hle|Hlt].
    + apply StronglySorted_cons. split; [|apply StronglySorted_cons; auto].
      constructor.
      * unfold stable_order. destruct (Nat.eq_dec x.2 y.2); [right; auto | left; lia].
      * rewrite Forall_forall in Hy, Hx. apply Forall_forall. intros z Hz.
        pose proof (stable_order_le S y z (Hy z Hz)).
        unfold stable_order. destruct (Nat.eq_dec x.2 z.2); [right; auto | left; lia].
    + apply StronglySorted_cons. split; [|auto].
      rewrite (insert_by_count_perm x l). constructor; [|exact Hy]. now left.
Qed.

Lemma argsort_sorted (S : relation (K * nat)) (l : list (K * nat)) :
  StronglySorted S l -> StronglySorted (stable_order S) (argsort l).
Proof.
  induction l as [|x l IH]; cbn [argsort]; intros Hs; [constructor|].
  apply StronglySorted_cons in Hs as [Hx Hs].
  apply insert_by_count_sorted; [auto|]. now rewrite argsort_perm.
Qed.

Lemma StronglySorted_rev (A : Type) (R : relation A) (l : list A) :
  StronglySorted R l -> StronglySorted (flip R) (rev l).
Proof.
  induction l as [|x l IH]; intros Hs; [constructor|].
  apply StronglySorted_cons in Hs as [Hx Hs]. cbn [rev].
  apply StronglySorted_app_2; [|auto|repeat constructor].
  intros y z Hy Hz. apply list_elem_of_singleton in Hz as ->.
  apply list_elem_of_In, List.in_rev, list_elem_of_In in Hy.
  rewrite Forall_forall in Hx. exact (Hx y Hy).
Qed.

(** Descending order, with ties left in the order the entries came in. *)
Lemma sort_values_descending_sorted (S : relation (K * nat)) (l : list (K * nat)) :
  StronglySorted S l ->
  StronglySorted (fun x y => y.2 < x.2 \/ (y.2 = x.2 /\ S x y)) (sort_values_descending l).
Proof.
  intros Hs. unfold sort_values_descending.
  apply (StronglySorted_rev _ (stable_order (flip S))), argsort_sorted.
  now apply StronglySorted_rev.
Qed.

Lemma sort_values_descending_perm (l : list (K * nat)) : sort_values_descending l ≡ₚ l.
Proof.
  unfold sort_values_descending.
  now rewrite <- Permutation_rev, argsort_perm, <- Permutation_rev.
Qed.

End Sort.

(** ** The summary *)

Lemma size_sorted (K : Type) (cmp : K -> K -> comparison) (gs : list (K * list Failure)) :
  StronglySorted (key_lt cmp) gs -> StronglySorted (key_lt cmp) (size_ gs).
Proof.
  induction gs as [|[k g] gs IH]; intros Hs; [constructor|].
  apply StronglySorted_cons in Hs as [Hk Hs]. cbn [size_ map].
  apply StronglySorted_cons. split; [|auto].
  apply List.Forall_map. eapply List.Forall_impl; [|exact Hk].
  intros [k' g'] H. exact H.
Qed.

Lemma size_keys (K : Type) (gs : list (K * list Failure)) : (size_ gs).*1 = gs.*1.
Proof. induction gs as [|[k g] gs IH]; [reflexivity|]. cbn. now rewrite <- IH. Qed.

Lemma in_size (K : Type) (gs : list (K * list Failure)) (k : K) (n : nat) :
  (k, n) ∈ size_ gs -> exists g, (k, g) ∈ gs /\ n = length g.
Proof.
  unfold size_. intros H. apply list_elem_of_In, List.in_map_iff in H as ([k' g] & E & Hin).
  injection E as <- <-. exists g. split; [now apply list_elem_of_In | reflexivity].
Qed.

Lemma sorted_keys_NoDup (gs : list (string * list Failure)) :
  StronglySorted (key_lt String.compare) gs -> NoDup (gs.*1).
Proof.
  induction gs as [|[k g] gs IH]; intros Hs; [constructor|].
  apply StronglySorted_cons in Hs as [Hk Hs]. cbn. apply NoDup_cons. split; [|auto].
  intros Hin. apply list_elem_of_fmap in Hin as ([k' g'] & -> & Hin).
  rewrite Forall_forall in Hk. pose proof (Hk _ Hin) as H. unfold key_lt in H. cbn in H.
  rewrite string_compare_refl in H. discriminate.
Qed.

Lemma in_group_column (a : string) (f : Failure) :
  in_group String.compare column a f = bool_decide (column f = Some a).
Proof.
  unfold in_group. destruct (column f) as [k|].
  - destruct (String.compare k a) eqn:E.
    + apply string_compare_eq in E as ->. now rewrite bool_decide_eq_true_2.
    + rewrite bool_decide_eq_false_2; [reflexivity|]. intros [= ->].
      rewrite string_compare_refl in E. discriminate.
    + rewrite bool_decide_eq_false_2; [reflexivity|]. intros [= ->].
      rewrite string_compare_refl in E. discriminate.
  - now rewrite bool_decide_eq_false_2.
Qed.

Lemma group_of_column_length (a : string) (erros : list Failure) :
  length (group_of String.compare column a erros) = Spec.count_field a erros.
Proof.
  unfold group_of, Spec.count_field. f_equal. apply List.filter_ext, in_group_column.
Qed.

(** Against C9 as stated: the summary of the failures of one record that
    fails in [nome] and in [cpf]. The two counts are equal and [cpf] comes
    first, though [nome] is declared first. *)
Lemma resumo_ties_not_in_declaration_order :
  let erros := [mkFailure (Some 0) (Some "nome") "not_nullable" None;
                mkFailure (Some 0) (Some "cpf") "CPF inválido" (Some (VStr "123"))] in
  resumo erros = [("cpf", 1); ("nome", 1)]
  /\ ~ Spec.ties_in_declaration_order (resumo erros).
Proof.
  split; [reflexivity|].
  intros H. destruct (H 0 1 "cpf" "nome" 1) as (i & j & Hi & Hj & Hlt);
    [lia | reflexivity | reflexivity |].
  clear -Hj Hlt. destruct j as [|[|[|[|[|j]]]]]; cbn in Hj; try discriminate Hj. lia.
Qed.

Lemma StronglySorted_weaken (A : Type) (R S : relation A) (l : list A) :
  (forall x y, R x y -> S x y) -> StronglySorted R l -> StronglySorted S l.
Proof.
  intros HRS. induction 1 as [|x l Hs IH Hx]; constructor; [exact IH|].
  eapply List.Forall_impl; [|exact Hx]. intros y. apply HRS.
Qed.

(** C9, as the code has it. The summary lists each field that has failures
    once, with the number of its failures, in descending order of count.
    Nothing settles the order of fields with equal counts. *)
Theorem resumo_order (erros : list Failure) :
  StronglySorted Spec.summary_order (resumo erros)
  /\ (resumo erros).*1 ≡ₚ remove_dups (omap column erros)
  /\ Forall (fun an => an.2 = Spec.count_field an.1 erros) (resumo erros).
Proof.
  unfold resumo.
  destruct (groupby_grouped String.compare column string_compare_eq string_compare_antisym
              string_compare_trans erros) as (Hs & Hg & Hc).
  set (gs := groupby String.compare column erros) in *.
  split; [|split].
  - eapply StronglySorted_weaken;
      [|exact (sort_values_descending_sorted _ _ (size_sorted _ _ _ Hs))].
    intros x y [H|[H _]]; unfold Spec.summary_order; lia.
  - rewrite sort_values_descending_perm, size_keys.
    apply NoDup_Permutation; [now apply sorted_keys_NoDup | apply NoDup_remove_dups |].
    intros a. rewrite elem_of_remove_dups, list_elem_of_omap. split.
    + intros Ha. apply list_elem_of_fmap in Ha as ([k g] & -> & Hin). cbn.
      destruct (Hg k g Hin) as [-> Hne].
      destruct (group_of String.compare column k erros) as [|f l] eqn:E; [contradiction|].
      assert (Hf : In f (group_of String.compare column k erros)) by (rewrite E; now left).
      apply List.filter_In in Hf as [Hf Hk]. rewrite in_group_column in Hk.
      apply bool_decide_eq_true in Hk. exists f. split; [now apply list_elem_of_In | exact Hk].
    + intros (f & Hf & Hk). apply Hc. intros E.
      assert (Hin : In f (group_of String.compare column a erros)).
      { apply List.filter_In. split; [now apply list_elem_of_In|].
        rewrite in_group_column. now apply bool_decide_eq_true. }
      rewrite E in Hin. destruct Hin.
  - rewrite sort_values_descending_perm. apply Forall_forall. intros [k n] Hin.
    apply in_size in Hin as (g & Hin & ->). destruct (Hg k g Hin) as [-> _].
    apply group_of_column_length.
Qed.

(** ** The error report *)

(** Against C4 as stated: two calls with the same arguments, one second
    apart, write different text. The timestamp is not an argument of the
    formatter. *)
Lemma gerar_relatorio_erros_reads_clock :
  let w1 := mkWorld ∅ ∅ (mkDatetime 2024 1 15 10 30 0) in
  let w2 := mkWorld ∅ ∅ (mkDatetime 2024 1 15 10 30 1) in
  text_files (gerar_relatorio_erros (fun _ => EmptyString) [] "relatorio.txt" w1) !! "relatorio.txt"
  <> text_files (gerar_relatorio_erros (fun _ => EmptyString) [] "relatorio.txt" w2) !! "relatorio.txt".
Proof.
  intros w1 w2. unfold gerar_relatorio_erros. cbn [text_files].
  rewrite !lookup_insert_eq. intros H. injection H as H.
  vm_compute in H. discriminate H.
Qed.

(** C4, as the code has it. Two runs of the formatter on the same failures
    write the same text after the header, whatever the file and the time.
    The header carries the only timestamp, which the formatter reads from
    the clock. *)
Theorem gerar_relatorio_erros_body (repr_float : Q -> string) (erros : list Failure)
    (arquivo1 arquivo2 : string) (w1 w2 : World) :
  exists body : string,
    text_files (gerar_relatorio_erros repr_float erros arquivo1 w1) !! arquivo1
    = Some (Spec.header_at (now w1) (length erros) ++ body)
    /\ text_files (gerar_relatorio_erros repr_float erros arquivo2 w2) !! arquivo2
       = Some (Spec.header_at (now w2) (length erros) ++ body).
Proof.
  exists (report_body repr_float erros ++ report_footer).
  unfold gerar_relatorio_erros. cbn [text_files]. rewrite !lookup_insert_eq.
  split; reflexivity.
Qed.
(** * Further properties *)

(** ** The check digit *)

(** X1. On a string of digits the check digit is a single decimal digit. *)
Theorem calcular_digito_verificador_range (cpf_parcial : Uni.t) :
  Forall (fun c => Uni.isdecimal c = true) cpf_parcial ->
  exists d : Z, _calcular_digito_verificador cpf_parcial = Ok d /\ (0 <= d <= 9)%Z.
Proof.
  intros Hd. rewrite (calcular_digito_verificador_spec cpf_parcial Hd).
  eexists. split; [reflexivity|]. unfold Spec.check_digit.
  pose proof (Z.mod_pos_bound
                (Spec.weighted_sum (map Spec.digit_value cpf_parcial)) 11) as Hm.
  destruct (Z.ltb_spec (Spec.weighted_sum (map Spec.digit_value cpf_parcial) mod 11) 2);
    lia.
Qed.

(** The theorem at the first nine digits of 111.444.777-35. *)
Lemma calcular_digito_verificador_range_witness :
  exists d : Z,
    _calcular_digito_verificador (Uni.of_string "111444777") = Ok d /\ (0 <= d <= 9)%Z.
Proof.
  apply (calcular_digito_verificador_range (Uni.of_string "111444777")).
  repeat constructor.
Defined.

Lemma soma_loop_nondigit (s : Uni.t) :
  Exists (fun c => Uni.isdecimal c = false) s ->
  forall L i acc : Z, soma_loop L i s acc = Raise ValueError.
Proof.
  induction s as [|c s IH]; intros He L i acc.
  - inversion He.
  - cbn [soma_loop]. unfold Uni.int. unfold Uni.isdecimal in He, IH.
    destruct (Uni.decimal c) eqn:Hc.
    + cbn [mbind exc_bind]. apply IH.
      inversion He as [? ? H|? ? H]; subst; [|exact H]. rewrite Hc in H. discriminate H.
    + reflexivity.
Qed.

(** X2. On a string that holds a character that is not a digit, the check
    digit is not computed: [int] raises [ValueError]. *)
Theorem calcular_digito_verificador_nondigit (cpf_parcial : Uni.t) :
  Exists (fun c => Uni.isdecimal c = false) cpf_parcial ->
  _calcular_digito_verificador cpf_parcial = Raise ValueError.
Proof.
  intros He. unfold _calcular_digito_verificador.
  now rewrite (soma_loop_nondigit cpf_parcial He).
Qed.

(** The theorem at a formatted prefix. *)
Lemma calcular_digito_verificador_nondigit_witness :
  _calcular_digito_verificador (Uni.of_string "111.444.777") = Raise ValueError.
Proof.
  apply (calcular_digito_verificador_nondigit (Uni.of_string "111.444.777")).
  do 3 apply Exists_cons_tl. apply Exists_cons_hd. reflexivity.
Defined.

(** ** The CPF validator and the layout of its input *)

Lemma isdecimal_not_isspace (c : N) : Uni.isdecimal c = true -> Uni.isspace c = false.
Proof.
  intros Hd. destruct (Uni.isspace c) eqn:Hs; [|reflexivity].
  apply isspace_not_isdecimal in Hs. congruence.
Qed.

Lemma sub_nondigit_idem (s : Uni.t) :
  Uni.sub_nondigit (Uni.sub_nondigit s) = Uni.sub_nondigit s.
Proof.
  unfold Uni.sub_nondigit.
  induction s as [|c s IH]; [reflexivity|]. cbn [List.filter].
  destruct (Uni.isdecimal c) eqn:Hc; [|exact IH]. cbn [List.filter]. now rewrite Hc, IH.
Qed.

Lemma strip_digits (l : Uni.t) :
  Forall (fun c => Uni.isdecimal c = true) l -> Uni.strip l = l.
Proof.
  unfold Uni.strip. intros Hd.
  assert (Hl : Uni.lstrip l = l).
  { destruct l as [|c l]; [reflexivity|]. cbn [Uni.lstrip].
    inversion Hd as [|? ? Hc _]; subst. now rewrite (isdecimal_not_isspace c Hc). }
  rewrite Hl. clear Hl.
  induction l as [|c l IH]; [reflexivity|]. inversion Hd as [|? ? Hc Hl]; subst.
  cbn [Uni.rstrip]. rewrite (IH Hl).
  destruct l; [now rewrite (isdecimal_not_isspace c Hc) | reflexivity].
Qed.

(** X3. The validator looks at the digits only: a string and the string of
    its digits get the same answer, whatever the punctuation, the spaces and
    the letters in between. *)
Theorem validar_cpf_individual_digits_only (s : Uni.t) :
  validar_cpf_individual (Uni.PyStr s)
  = validar_cpf_individual (Uni.PyStr (Uni.sub_nondigit s)).
Proof.
  pose proof (sub_nondigit_all_digits s) as Hd.
  unfold validar_cpf_individual. cbn [Uni.str Uni.isna orb].
  rewrite (strip_digits _ Hd), sub_nondigit_idem, sub_nondigit_strip.
  destruct (eqb_spec (Uni.strip s) []) as [He|He].
  { rewrite <- (sub_nondigit_strip s), He. reflexivity. }
  destruct (eqb_spec (Uni.strip s) (Uni.of_string "nan")) as [Hn|Hn].
  { rewrite <- (sub_nondigit_strip s), Hn. reflexivity. }
  cbn [orb].
  destruct (eqb_spec (Uni.sub_nondigit s) []) as [E|E].
  { rewrite E. reflexivity. }
  destruct (eqb_spec (Uni.sub_nondigit s) (Uni.of_string "nan")) as [E'|E'].
  { exfalso. rewrite E' in Hd. inversion Hd as [|? ? H _]. discriminate H. }
  reflexivity.
Qed.

(** What an accepted input holds: eleven digits, the last two of which are
    the check digits of those before them. *)
Lemma validar_cpf_individual_true_inv (s : Uni.t) :
  validar_cpf_individual (Uni.PyStr s) = Ok true ->
  length (Spec.digits_of s) = 11
  /\ nth 9 (Spec.digits_of s) 0%Z = Spec.check_digit (firstn 9 (Spec.digits_of s))
  /\ nth 10 (Spec.digits_of s) 0%Z = Spec.check_digit (firstn 10 (Spec.digits_of s)).
Proof.
  unfold validar_cpf_individual, Spec.digits_of.
  change (Spec.digit_chars s) with (Uni.sub_nondigit s).
  rewrite length_map. cbn [Uni.str Uni.isna orb].
  destruct (Uni.eqb (Uni.strip s) []); [discriminate|].
  destruct (Uni.eqb (Uni.strip s) (Uni.of_string "nan")); [discriminate|]. cbn [orb].
  rewrite sub_nondigit_strip.
  pose proof (sub_nondigit_all_digits s) as Hd.
  generalize dependent (Uni.sub_nondigit s). intros l Hd.
  destruct (Nat.eqb_spec (length l) 11) as [Hl|Hl]; cbn [negb]; [|discriminate].
  destruct l as [|c0 [|c1 [|c2 [|c3 [|c4 [|c5 [|c6 [|c7 [|c8 [|c9 [|c10 [|? ?]]]]]]]]]]]];
    try discriminate Hl. clear Hl.
  cbn [Uni.getitem lookup list_lookup mbind exc_bind Uni.slice_to firstn].
  rewrite !Forall_cons in Hd.
  destruct Hd as (H0 & H1 & H2 & H3 & H4 & H5 & H6 & H7 & H8 & H9 & H10 & _).
  rewrite !calcular_digito_verificador_spec by (repeat constructor; assumption).
  rewrite (int_digit c9 H9), (int_digit c10 H10).
  cbn [mbind exc_bind map firstn nth length].
  destruct (Uni.eqb _ _); [discriminate|].
  match goal with
  | |- context [Z.eqb ?a ?b] => destruct (Z.eqb_spec a b) as [E1|E1]; cbn [negb]
  end; [|discriminate].
  match goal with
  | |- context [Z.eqb ?a ?b] => destruct (Z.eqb_spec a b) as [E2|E2]; cbn [negb]
  end; [|discriminate].
  intros _. auto.
Qed.

(** X4. The two check digits are a function of the nine digits before them:
    two accepted inputs whose first nine digits have the same values have the
    same eleven digit values. *)
Theorem validar_cpf_individual_check_digits_determined (s1 s2 : Uni.t) :
  validar_cpf_individual (Uni.PyStr s1) = Ok true ->
  validar_cpf_individual (Uni.PyStr s2) = Ok true ->
  firstn 9 (Spec.digits_of s1) = firstn 9 (Spec.digits_of s2) ->
  Spec.digits_of s1 = Spec.digits_of s2.
Proof.
  intros V1 V2 E.
  apply validar_cpf_individual_true_inv in V1 as (L1 & A1 & A2).
  apply validar_cpf_individual_true_inv in V2 as (L2 & B1 & B2).
  generalize dependent (Spec.digits_of s2). generalize dependent (Spec.digits_of s1).
  intros l1 L1 A1 A2 l2 L2 B1 B2 E.
  destruct l1 as [|a0 [|a1 [|a2 [|a3 [|a4 [|a5 [|a6 [|a7 [|a8 [|a9 [|a10 [|? ?]]]]]]]]]]]];
    try discriminate L1.
  destruct l2 as [|b0 [|b1 [|b2 [|b3 [|b4 [|b5 [|b6 [|b7 [|b8 [|b9 [|b10 [|? ?]]]]]]]]]]]];
    try discriminate L2.
  cbn [firstn nth] in *. injection E as -> -> -> -> -> -> -> -> ->.
  rewrite <- B1 in A1. subst a9. rewrite <- B2 in A2. subst a10. reflexivity.
Qed.

(** The theorem at one identifier in two scripts: ASCII digits, and the same
    with its two check digits written as fullwidth digits. *)
Lemma validar_cpf_individual_check_digits_determined_witness :
  Spec.digits_of (Uni.of_string "111.444.777-35")
  = Spec.digits_of (Uni.of_string "111444777" ++ [65299%N; 65301%N])%list.
Proof.
  apply (validar_cpf_individual_check_digits_determined
           (Uni.of_string "111.444.777-35")
           (Uni.of_string "111444777" ++ [65299%N; 65301%N])%list);
    reflexivity.
Defined.

(** X5. Applied to a series, the validator gives one boolean per element, the
    one the validator gives for that element, and raises no error. *)
Theorem validar_cpf_series (serie : list Uni.t) :
  exists results : list bool,
    validar_cpf serie = Ok results
    /\ Forall2 (fun s b => validar_cpf_individual (Uni.PyStr s) = Ok b) serie results.
Proof.
  unfold validar_cpf.
  induction serie as [|s serie (results & E & IH)]; [exists []; split; [reflexivity | constructor]|].
  destruct (validar_cpf_individual_total (Uni.PyStr s)) as (b & Hb).
  exists (b :: results). split; [|constructor; assumption].
  cbn [mapM]. rewrite Hb. cbn [mbind exc_bind]. rewrite E. reflexivity.
Qed.

(** ** The email validator *)

(** X6. What the email validator accepts: the strings that are an address
    (local characters, an at sign, domain characters, a dot, two or more
    letters), and those that are an address followed by one newline. *)
Theorem validar_email_individual_characterised (s : string) :
  validar_email_individual (Py.PyStr s) = true
  <-> exists s0, Spec.email_valid s0 /\ (s = s0 \/ s = s0 ++ nl).
Proof.
  rewrite validar_email_individual_accepts. split.
  - intros [H|(s0 & E & H)]; [exists s | exists s0]; auto.
  - intros (s0 & H & [->| ->]); [now left | right; eauto].
Qed.

(** X7. A string with whitespace at its start or at its end is rejected,
    unless its last character is a newline. *)
Theorem validar_email_individual_padded (s : string) :
  Spec.padded s ->
  last (Spec.chars s) <> Some "010"%char ->
  validar_email_individual (Py.PyStr s) = false.
Proof.
  intros [(c & Hh & Hc)|(c & Hl & Hc)] Hnl.
  - exact (validar_email_individual_leading_space s c Hh Hc).
  - apply (validar_email_individual_trailing_space s c Hl Hc). intros ->. contradiction.
Qed.

(** The theorem at an address after a space. *)
Lemma validar_email_individual_padded_witness :
  validar_email_individual (Py.PyStr " a@b.com") = false.
Proof.
  apply (validar_email_individual_padded " a@b.com").
  - left. exists " "%char. split; reflexivity.
  - vm_compute. discriminate.
Defined.

Lemma count_made_of (p : ascii -> bool) (s : string) (a : ascii) :
  p a = false -> Spec.made_of p s -> count_occ ascii_dec (Spec.chars s) a = 0.
Proof.
  intros Ha Hs. apply count_occ_not_In. intros Hin.
  unfold Spec.made_of in Hs. rewrite List.Forall_forall in Hs.
  specialize (Hs a Hin). congruence.
Qed.

Lemma email_valid_one_at (s : string) :
  Spec.email_valid s -> count_occ ascii_dec (Spec.chars s) "@"%char = 1.
Proof.
  intros (l & d & t & -> & _ & Hl & _ & Hd & _ & Ht).
  rewrite !chars_append, !count_occ_app.
  rewrite (count_made_of Spec.local_char l), (count_made_of Spec.domain_char d),
    (count_made_of Spec.is_alpha t); auto.
Qed.

(** X8. An accepted string holds exactly one at sign. *)
Theorem validar_email_individual_one_at (s : string) :
  validar_email_individual (Py.PyStr s) = true ->
  count_occ ascii_dec (Spec.chars s) "@"%char = 1.
Proof.
  intros H. apply validar_email_individual_accepts in H as [H|(s0 & -> & H)].
  - now apply email_valid_one_at.
  - rewrite chars_append, count_occ_app, (email_valid_one_at s0 H). reflexivity.
Qed.

(** The theorem at an address with a tagged local part. *)
Lemma validar_email_individual_one_at_witness :
  count_occ ascii_dec (Spec.chars "ana.silva+x@mail.example.org") "@"%char = 1.
Proof.
  apply (validar_email_individual_one_at "ana.silva+x@mail.example.org"). reflexivity.
Defined.

(** ** The schema *)

(** X9. The check of the [nome] column: a name passes exactly when its length
    is between 1 and 255. *)
Theorem schema_nome_check (i : nat) (s : string) :
  validate_column "nome" (col_nome schema) [(i, Some s)] = []
  <-> 1 <= String.length s <= 255.
Proof.
  unfold validate_column, run_check. cbn -[Nat.leb].
  destruct (Nat.leb_spec 1 (String.length s)) as [H1|H1];
    destruct (Nat.leb_spec (String.length s) 255) as [H2|H2]; cbn;
    split; intros H; try lia; try discriminate H; reflexivity.
Qed.
(** ** The errors [validar_dados] lets out *)

Lemma with_excel_id (w : World) (path : string) (p : Planilha) :
  excel_files w !! path = Some (Workbook p) -> with_excel w path p = w.
Proof.
  intros E. destruct w as [ex tx t]. unfold with_excel. cbn [excel_files text_files now] in *.
  f_equal. now apply insert_id.
Qed.

(** X11. [validar_dados] raises exactly when the file cannot be read, and
    then with the error of the reader: [FileNotFoundError] where there is no
    file, [BadZipFile] where the file is no workbook.  The schema errors of
    the validation are always caught. *)
Theorem validar_dados_raises (w : World) (path : string) (e : exception) :
  validar_dados w path = Raise e <-> read_excel w path = Raise e.
Proof.
  destruct (excel_files w !! path) as [[p|]|] eqn:E.
  - pose proof (validar_dados_unfold w path p) as U.
    pose proof (read_excel_with_excel w path p) as R.
    rewrite (with_excel_id w path p E) in U, R. rewrite U, R.
    split; discriminate.
  - unfold validar_dados, read_excel. rewrite E. cbn [mbind exc_bind].
    split; intros [= <-]; reflexivity.
  - unfold validar_dados, read_excel. rewrite E. cbn [mbind exc_bind].
    split; intros [= <-]; reflexivity.
Qed.

Lemma filter_length_all (A : Type) (q : A -> bool) (l : list A) :
  length (List.filter q l) = length l -> forall x, In x l -> q x = true.
Proof.
  induction l as [|y l IH]; intros Hlen x Hx; [destruct Hx|].
  pose proof (List.filter_length_le q l) as Hle.
  cbn [List.filter] in Hlen. destruct (q y) eqn:Ey; cbn [length] in Hlen.
  - destruct Hx as [<-|Hx]; [exact Ey|]. apply IH; [lia | exact Hx].
  - lia.
Qed.

(** X12. A run returns no failure exactly when it returns every record of the
    sheet as valid. *)
Theorem validar_dados_no_failure_all_valid (w : World) (path : string) (p : Planilha) :
  exists validos erros,
    validar_dados (with_excel w path p) path = Ok (validos, erros)
    /\ (erros = [] <-> length (rows validos) = length (registros p)).
Proof.
  exists (validos_of (frame_of p)), (erros_of (frame_of p)).
  split; [apply validar_dados_unfold|].
  assert (Hlen : length (rows (frame_of p)) = length (registros p)).
  { unfold frame_of. cbn [rows]. apply length_imap. }
  unfold validos_of. cbn [rows]. split.
  - intros E. rewrite E. cbn [omap list_omap]. rewrite filter_all; [exact Hlen|].
    intros [i r] _. rewrite bool_decide_eq_false_2; [reflexivity | set_solver].
  - intros E. rewrite <- Hlen in E.
    pose proof (filter_length_all _ _ _ E) as Hall.
    destruct (erros_of (frame_of p)) as [|f fs] eqn:Ee; [reflexivity|]. exfalso.
    assert (Hf : In f (erros_of (frame_of p))) by (rewrite Ee; now left).
    destruct (erros_of_index _ f Hf) as (Hfc & i & Hi).
    destruct (failure_cases_index _ f i Hfc Hi) as (Hrow & _).
    apply list_elem_of_In, list_elem_of_fmap in Hrow as ([j r] & -> & Hin).
    apply list_elem_of_In in Hin. specialize (Hall (j, r) Hin). cbn in Hall, Hi.
    rewrite Hi in Hall.
    apply negb_true_iff, bool_decide_eq_false in Hall. apply Hall. set_solver.
Qed.

Lemma campo_fails_violates (c : Spec.campo) (r : Registro) :
  campo_fails c r -> Spec.violates c r.
Proof.
  intros Hf. unfold Spec.violates.
  assert (H : exists f, In f (Spec.field_failures c r)).
  { destruct c; cbn [Spec.field_failures campo_fails] in *.
    - destruct (proj2 (validate_column_fails "nome" (col_nome schema) [(0, nome r)] 0
                         elementwise_nome)) as (f & Hin & _); eauto. eexists; split; [now left|auto].
    - destruct (proj2 (validate_column_fails "cpf" (col_cpf schema) [(0, cpf r)] 0
                         elementwise_cpf)) as (f & Hin & _); eauto. eexists; split; [now left|auto].
    - destruct (proj2 (validate_column_fails "email" (col_email schema) [(0, email r)] 0
                         elementwise_email)) as (f & Hin & _); eauto. eexists; split; [now left|auto].
    - destruct (proj2 (validate_column_fails "valor_contrato" (col_valor_contrato schema)
                         [(0, valor_contrato r)] 0 elementwise_valor_contrato))
        as (f & Hin & _); eauto. eexists; split; [now left|auto].
    - destruct (proj2 (validate_column_fails "idade" (col_idade schema) [(0, idade r)] 0
                         elementwise_idade)) as (f & Hin & _); eauto. eexists; split; [now left|auto]. }
  destruct H as (f & Hin). intros E. rewrite E in Hin. destruct Hin.
Qed.


(** ** The totals of the summary *)

Lemma add_to_group_total (K : Type) (cmp : K -> K -> comparison) (k : K) (x : Failure)
    (gs : list (K * list Failure)) :
  sum_list ((size_ (add_to_group cmp k x gs)).*2) = S (sum_list ((size_ gs).*2)).
Proof.
  induction gs as [|[k' g] gs IH]; [reflexivity|].
  cbn [add_to_group]. destruct (cmp k k').
  - cbn. rewrite length_app. cbn. lia.
  - reflexivity.
  - change (length g + sum_list ((size_ (add_to_group cmp k x gs)).*2)
            = S (length g + sum_list ((size_ gs).*2))).
    rewrite IH. lia.
Qed.

(** Each row with a key is in one group. *)
Lemma groupby_total (K : Type) (cmp : K -> K -> comparison) (key : Failure -> option K)
    (l : list Failure) :
  sum_list ((size_ (groupby cmp key l)).*2)
  = length (List.filter (fun f => bool_decide (is_Some (key f))) l).
Proof.
  unfold groupby.
  enough (G : forall gs,
             sum_list ((size_ (fold_left (fun gs x => match key x with
                                                       | Some k => add_to_group cmp k x gs
                                                       | None => gs
                                                       end) l gs)).*2)
             = sum_list ((size_ gs).*2)
               + length (List.filter (fun f => bool_decide (is_Some (key f))) l))
    by exact (G []).
  induction l as [|x l IH]; intros gs; cbn [fold_left List.filter]; [cbn; lia|].
  rewrite IH. destruct (key x) as [k|].
  - rewrite add_to_group_total.
    rewrite bool_decide_eq_true_2 by eauto. cbn [length]. lia.
  - rewrite bool_decide_eq_false_2 by (intros [k Hk]; discriminate Hk). reflexivity.
Qed.

Lemma sum_list_perm (l1 l2 : list nat) : l1 ≡ₚ l2 -> sum_list l1 = sum_list l2.
Proof. induction 1; cbn; lia. Qed.

(** X15. The counts of the summary add up to the number of failures that name
    a column: no failure is counted twice or left out. *)
Theorem resumo_total (erros : list Failure) :
  sum_list ((resumo erros).*2)
  = length (List.filter (fun f => bool_decide (is_Some (column f))) erros).
Proof.
  unfold resumo.
  rewrite <- (groupby_total string String.compare column erros).
  apply sum_list_perm, fmap_Permutation, sort_values_descending_perm.
Qed.

(** ** [main] *)

Section Main.

Variable repr_float : Q -> string.

Lemma main_unfold (w : World) (p : Planilha) :
  excel_files w !! "dados_clientes.xlsx" = Some (Workbook p) ->
  main repr_float w
  = let erros := erros_of (frame_of p) in
    let '(w1, shown) :=
      match erros with
      | [] => (w, [])
      | _ => (gerar_relatorio_erros repr_float erros
                ("relatorio_erros_" ++ strftime_file (now w) ++ ".txt") w,
              resumo erros)
      end in
    w2 ← match rows (validos_of (frame_of p)), columns (validos_of (frame_of p)) with
         | [], _ | _, [] => Ok w1
         | _, _ => to_excel (validos_of (frame_of p)) "dados_clientes_validos.xlsx" w1
         end;
    Ok (w2, shown).
Proof.
  intros E. unfold main. rewrite E.
  rewrite bool_decide_eq_true_2 by eauto. cbn [negb].
  pose proof (validar_dados_unfold w "dados_clientes.xlsx" p) as U.
  rewrite (with_excel_id w _ p E) in U. rewrite U. cbn [mbind exc_bind].
  destruct (erros_of (frame_of p)); reflexivity.
Qed.

(** What [to_excel] changes: the one spreadsheet it is given the path of. *)
Lemma to_excel_effects (df : DataFrame) (path : string) (w w' : World) :
  to_excel df path w = Ok w' ->
  delete path (excel_files w') = delete path (excel_files w)
  /\ text_files w' = text_files w.
Proof.
  unfold to_excel. destruct (mapM stored ((rows df).*2)) as [regs|e]; cbn [mbind exc_bind];
    [|discriminate].
  intros [= <-]. cbn [excel_files text_files]. now rewrite delete_insert_eq.
Qed.

(** X16. Without its input file [main] does nothing: it returns normally,
    writes no file and shows no summary. *)
Theorem main_missing_input (w : World) :
  excel_files w !! "dados_clientes.xlsx" = None -> main repr_float w = Ok (w, []).
Proof.
  intros E. unfold main. rewrite E.
  rewrite bool_decide_eq_false_2; [reflexivity|]. intros [p Hp]. discriminate Hp.
Qed.

(** X17. A run of [main] that comes to its end has written at most two
    files: the file of the valid records and the report named after the
    clock.  Every other spreadsheet, the input among them, and every other
    text file is left as it was. *)
Theorem main_effects (w w' : World) (shown : list (string * nat)) :
  main repr_float w = Ok (w', shown) ->
  delete "dados_clientes_validos.xlsx" (excel_files w')
  = delete "dados_clientes_validos.xlsx" (excel_files w)
  /\ delete ("relatorio_erros_" ++ strftime_file (now w) ++ ".txt") (text_files w')
     = delete ("relatorio_erros_" ++ strftime_file (now w) ++ ".txt") (text_files w)
  /\ excel_files w' !! "dados_clientes.xlsx" = excel_files w !! "dados_clientes.xlsx".
Proof.
  intros Hm.
  enough (H : delete "dados_clientes_validos.xlsx" (excel_files w')
              = delete "dados_clientes_validos.xlsx" (excel_files w)
              /\ delete ("relatorio_erros_" ++ strftime_file (now w) ++ ".txt") (text_files w')
                 = delete ("relatorio_erros_" ++ strftime_file (now w) ++ ".txt")
                     (text_files w)).
  { destruct H as [H1 H2]. split; [exact H1|]. split; [exact H2|].
    apply (f_equal (fun m => m !! "dados_clientes.xlsx")) in H1.
    now rewrite !lookup_delete_ne in H1 by discriminate. }
  destruct (excel_files w !! "dados_clientes.xlsx") as [[p|]|] eqn:E.
  - rewrite (main_unfold w p E) in Hm. cbn zeta in Hm.
    set (report := "relatorio_erros_" ++ strftime_file (now w) ++ ".txt") in *.
    assert (Hw1 : forall (w1 : World) (shown1 : list (string * nat)),
              excel_files w1 = excel_files w ->
              delete report (text_files w1) = delete report (text_files w) ->
              (w2 ← match rows (validos_of (frame_of p)), columns (validos_of (frame_of p)) with
                    | [], _ | _, [] => Ok w1
                    | _, _ => to_excel (validos_of (frame_of p))
                                "dados_clientes_validos.xlsx" w1
                    end; Ok (w2, shown1)) = Ok (w', shown) ->
              delete "dados_clientes_validos.xlsx" (excel_files w')
              = delete "dados_clientes_validos.xlsx" (excel_files w)
              /\ delete report (text_files w') = delete report (text_files w)).
    { intros w1 shown1 He Ht Hw.
      destruct (rows (validos_of (frame_of p))) as [|r rs];
        [cbn [mbind exc_bind] in Hw; injection Hw as <- _; now rewrite He, Ht|].
      destruct (columns (validos_of (frame_of p))) as [|c cs];
        [cbn [mbind exc_bind] in Hw; injection Hw as <- _; now rewrite He, Ht|].
      destruct (to_excel _ _ w1) as [w2|e] eqn:Et; cbn [mbind exc_bind] in Hw;
        [|discriminate Hw].
      injection Hw as <- _. apply to_excel_effects in Et as [Et1 Et2].
      now rewrite Et1, Et2, He, Ht. }
    destruct (erros_of (frame_of p)) as [|f fs].
    + apply (Hw1 w []); [reflexivity | reflexivity | exact Hm].
    + apply (Hw1 (gerar_relatorio_erros repr_float (f :: fs) report w) (resumo (f :: fs)));
        [reflexivity | | exact Hm].
      unfold gerar_relatorio_erros. cbn [text_files]. now rewrite delete_insert_eq.
  - exfalso. unfold main in Hm. rewrite E in Hm.
    rewrite bool_decide_eq_true_2 in Hm by eauto. cbn [negb] in Hm.
    unfold validar_dados, read_excel in Hm. rewrite E in Hm. discriminate Hm.
  - unfold main in Hm. rewrite E in Hm.
    rewrite bool_decide_eq_false_2 in Hm by (intros [p Hp]; discriminate Hp).
    cbn [negb] in Hm. now injection Hm as <- _.
Qed.

End Main.

(** The theorem in a world with no file. *)
Lemma main_missing_input_witness :
  main (fun _ => EmptyString) empty_world = Ok (empty_world, []).
Proof. apply (main_missing_input (fun _ => EmptyString) empty_world). reflexivity. Defined.

(** The theorem at a sheet of two records, the second without a name: the
    run writes the report and the file of the valid records. *)
Lemma main_effects_witness :
  let p := mkPlanilha ["nome"; "email"]
             [mkRegistro (Some "Ana") None (Some "ana@example.com") None None;
              mkRegistro None None (Some "rui@example.com") None None] in
  let w := with_excel empty_world "dados_clientes.xlsx" p in
  exists w' shown,
    main (fun _ => EmptyString) w = Ok (w', shown)
    /\ delete "dados_clientes_validos.xlsx" (excel_files w')
       = delete "dados_clientes_validos.xlsx" (excel_files w)
    /\ delete ("relatorio_erros_" ++ strftime_file (now w) ++ ".txt") (text_files w')
       = delete ("relatorio_erros_" ++ strftime_file (now w) ++ ".txt") (text_files w)
    /\ excel_files w' !! "dados_clientes.xlsx" = excel_files w !! "dados_clientes.xlsx".
Proof.
  intros p w.
  destruct (main (fun _ => EmptyString) w) as [[w' shown]|e] eqn:E.
  - exists w', shown. split; [reflexivity|].
    exact (main_effects (fun _ => EmptyString) w w' shown E).
  - exfalso. vm_compute in E. discriminate E.
Defined.

(** ** The sections of the report *)

Lemma nat_compare_antisym (a b : nat) : Nat.compare b a = CompOpp (Nat.compare a b).
Proof. apply Nat.compare_antisym. Qed.

Lemma nat_compare_trans (a b c : nat) :
  Nat.compare a b = Lt -> Nat.compare b c = Lt -> Nat.compare a c = Lt.
Proof. rewrite !Nat.compare_lt_iff. lia. Qed.

Lemma in_group_index (i : nat) (f : Failure) :
  in_group Nat.compare index i f = bool_decide (index f = Some i).
Proof.
  unfold in_group. destruct (index f) as [k|].
  - destruct (Nat.compare k i) eqn:E.
    + apply Nat.compare_eq_iff in E as ->. now rewrite bool_decide_eq_true_2.
    + apply Nat.compare_lt_iff in E.
      rewrite bool_decide_eq_false_2; [reflexivity|]. intros [= ->]. lia.
    + apply Nat.compare_gt_iff in E.
      rewrite bool_decide_eq_false_2; [reflexivity|]. intros [= ->]. lia.
  - now rewrite bool_decide_eq_false_2.
Qed.

Lemma sorted_keys_lt (gs : list (nat * list Failure)) :
  StronglySorted (key_lt Nat.compare) gs -> StronglySorted lt (gs.*1).
Proof.
  induction 1 as [|[k g] gs Hs IH Hk]; [constructor|].
  cbn. constructor; [exact IH|].
  apply Forall_fmap. eapply List.Forall_impl; [|exact Hk].
  intros [k' g'] H. unfold key_lt in H. cbn in *. now apply Nat.compare_lt_iff.
Qed.

(** X19. The body of the report has one section per row index that occurs in
    the failures, in ascending order of the index, and the section of an index
    lists the failures of that index in the order they have in the table. *)
Theorem report_body_sections (repr_float : Q -> string) (erros : list Failure) :
  exists linhas : list nat,
    StronglySorted lt linhas
    /\ (forall i, i ∈ linhas <-> exists f, f ∈ erros /\ index f = Some i)
    /\ report_body repr_float erros
       = String.concat EmptyString
           (map (fun i => report_group repr_float
                            (i, List.filter (fun f => bool_decide (index f = Some i)) erros))
                linhas).
Proof.
  destruct (groupby_grouped Nat.compare index Nat.compare_eq_iff nat_compare_antisym
              nat_compare_trans erros) as (Hs & Hg & Hc).
  unfold report_body. set (gs := groupby Nat.compare index erros) in *.
  exists (gs.*1). split; [now apply sorted_keys_lt|]. split.
  - intros i. split.
    + intros Hi. apply list_elem_of_fmap in Hi as ([k g] & -> & Hin). cbn.
      destruct (Hg k g Hin) as [-> Hne].
      destruct (group_of Nat.compare index k erros) as [|f l] eqn:E; [contradiction|].
      assert (Hf : In f (group_of Nat.compare index k erros)) by (rewrite E; now left).
      apply List.filter_In in Hf as [Hf Hk]. rewrite in_group_index in Hk.
      apply bool_decide_eq_true in Hk. exists f. split; [now apply list_elem_of_In | exact Hk].
    + intros (f & Hf & Hk). apply Hc. intros E.
      assert (Hin : In f (group_of Nat.compare index i erros)).
      { apply List.filter_In. split; [now apply list_elem_of_In|].
        rewrite in_group_index. now apply bool_decide_eq_true. }
      rewrite E in Hin. destruct Hin.
  - f_equal. change (gs.*1) with (map fst gs). rewrite List.map_map.
    apply List.map_ext_in. intros [k g] Hin. cbn [fst]. do 2 f_equal.
    apply list_elem_of_In in Hin. destruct (Hg k g Hin) as [-> _].
    unfold group_of. apply List.filter_ext. intros f. apply in_group_index.
Qed.
